(** * ndvi-visor: windowed raster access, NDVI computation, palettes, URL signing

    A shallow embedding of ndvi.js ([readCOGWindow], [computeNDVIArray],
    [renderNDVIToCanvas], [applyColormap], [interp]) and of [signUrl] of
    stac.js, together with the properties the specification states about
    them.

    Number model.  JavaScript numbers are IEEE doubles.  Here a finite number
    is a rational ([Q]); the values [NaN], [Infinity] and [-Infinity] are
    explicit constructors of [Js.num] wherever the source produces or tests
    them.  The pixel window of [readCOGWindow] is computed with the rounding
    of doubles written out: [Double.rnd] rounds a rational to the nearest
    double, ties to even, with gradual underflow, and the subtraction and
    the division of lines 61-64 are rounded with it (overflow to an infinity
    is not modelled there).  Everywhere else finite arithmetic is exact: the
    rounding of doubles, the rounding of a [Float32Array] store and the sign
    of zero are not modelled in the NDVI loop, the palettes and the map.
    Pixel indices, raster sizes and rounded colour channels, which the
    source obtains through [Math.floor], [Math.ceil] and [Math.round], are
    integers ([Z]). *)

From Stdlib Require Import ZArith QArith Qround Qminmax Qabs Qpower.
From Stdlib Require Import Bool String Lia Lqa.
From stdpp Require Import base option list.

Local Open Scope Q_scope.

(** * Definitions *)

(** ** JavaScript [Math] on finite numbers *)

Module JsMath.

Definition floor (x : Q) : Z := Qfloor x.
Definition ceil (x : Q) : Z := Qceiling x.

(** [Math.round] rounds halves towards +Infinity. *)
Definition round (x : Q) : Z := Qfloor (x + (1 # 2)).

End JsMath.

(** ** IEEE binary64 rounding of a rational *)

Module Double.

Definition pow2 (e : Z) : Q := Qpower 2 e.

(** Nearest integer, ties to even. *)
Definition rne (x : Q) : Z :=
  let f := Qfloor x in
  match Qcompare (x - inject_Z f) (1 # 2) with
  | Lt => f
  | Gt => (f + 1)%Z
  | Eq => if Z.even f then f else (f + 1)%Z
  end.

(** The exponent [e] with [2^e <= |x| < 2^(e+1)], for [x] that is not zero. *)
Definition binade (x : Q) : Z :=
  let e0 := (Z.log2 (Z.abs (Qnum x)) - Z.log2 (Zpos (Qden x)))%Z in
  if Qle_bool (pow2 e0) (Qabs x) then e0 else (e0 - 1)%Z.

(** Round to nearest, ties to even: 53 significant bits, and a spacing of
    [2^-1074] below the smallest normal number [2^-1022]. *)
Definition rnd (x : Q) : Q :=
  if Qeq_bool x 0 then 0
  else
    let e := Z.max (binade x) (-1022) in
    let u := pow2 (e - 52) in
    inject_Z (rne (x / u)) * u.

(** [a - b] and [a / b] on doubles. *)
Definition sub (a b : Q) : Q := rnd (a - b).
Definition div (a b : Q) : Q := rnd (a / b).

(** Relative and absolute bounds of the rounding error. *)
Definition eps : Q := pow2 (-53).
Definition eta : Q := pow2 (-1075).

End Double.

(** ** JavaScript numbers with [NaN] and the infinities *)

Module Js.

Inductive num : Type :=
| NaN
| NegInf
| Fin (q : Q)
| PosInf.

Definition Qltb (x y : Q) : bool :=
  match x ?= y with Lt => true | _ => false end.

Definition isNaN (a : num) : bool :=
  match a with NaN => true | _ => false end.

(** [a < b]; every comparison with [NaN] is false. *)
Definition lt (a b : num) : bool :=
  match a, b with
  | NaN, _ | _, NaN => false
  | _, NegInf => false
  | NegInf, _ => true
  | PosInf, _ => false
  | Fin _, PosInf => true
  | Fin x, Fin y => Qltb x y
  end.

(** [a > b]. *)
Definition gt (a b : num) : bool := lt b a.

Definition neg (a : num) : num :=
  match a with
  | NaN => NaN
  | NegInf => PosInf
  | Fin x => Fin (- x)
  | PosInf => NegInf
  end.

Definition add (a b : num) : num :=
  match a, b with
  | NaN, _ | _, NaN => NaN
  | Fin x, Fin y => Fin (x + y)
  | PosInf, NegInf | NegInf, PosInf => NaN
  | PosInf, _ | _, PosInf => PosInf
  | NegInf, _ | _, NegInf => NegInf
  end.

Definition sub (a b : num) : num := add a (neg b).

(** An infinity of the sign of [x] times the sign [s]; [0 * Infinity] is
    [NaN]. *)
Definition signedInf (s : bool) (x : Q) : num :=
  match x ?= 0 with
  | Eq => NaN
  | Gt => if s then PosInf else NegInf
  | Lt => if s then NegInf else PosInf
  end.

Definition mul (a b : num) : num :=
  match a, b with
  | NaN, _ | _, NaN => NaN
  | Fin x, Fin y => Fin (x * y)
  | Fin x, PosInf | PosInf, Fin x => signedInf true x
  | Fin x, NegInf | NegInf, Fin x => signedInf false x
  | PosInf, PosInf | NegInf, NegInf => PosInf
  | PosInf, NegInf | NegInf, PosInf => NegInf
  end.

(** Division; a zero divisor is taken as [+0]. *)
Definition div (a b : num) : num :=
  match a, b with
  | NaN, _ | _, NaN => NaN
  | Fin x, Fin y => if Qeq_bool y 0 then signedInf true x else Fin (x / y)
  | Fin _, PosInf | Fin _, NegInf => Fin 0
  | PosInf, Fin y => if Qltb y 0 then NegInf else PosInf
  | NegInf, Fin y => if Qltb y 0 then PosInf else NegInf
  | _, _ => NaN
  end.

(** [Math.min(a, b)] and [Math.max(a, b)]: [NaN] if either argument is. *)
Definition min (a b : num) : num :=
  match a, b with
  | NaN, _ | _, NaN => NaN
  | NegInf, _ | _, NegInf => NegInf
  | PosInf, c | c, PosInf => c
  | Fin x, Fin y => Fin (Qmin x y)
  end.

Definition max (a b : num) : num :=
  match a, b with
  | NaN, _ | _, NaN => NaN
  | PosInf, _ | _, PosInf => PosInf
  | NegInf, c | c, NegInf => c
  | Fin x, Fin y => Fin (Qmax x y)
  end.

(** Equality of numbers up to the representation of a rational. *)
Definition eqv (a b : num) : Prop :=
  match a, b with
  | NaN, NaN | NegInf, NegInf | PosInf, PosInf => True
  | Fin x, Fin y => x == y
  | _, _ => False
  end.

End Js.

(** ** [readCOGWindow]: AOI reprojection, pixel window, output size *)

Module Cog.

(** The affine geotransform read from the image header
    ([image.getOrigin()], [image.getResolution()]). *)
Record GeoTransform := mkGeoTransform
  { originX : Q; originY : Q; xRes : Q; yRes : Q }.

(** [bboxWGS84 = [west, south, east, north]]. *)
Record BBox := mkBBox { west : Q; south : Q; east : Q; north : Q }.

(** [utmCoords = { xmin, ymin, xmax, ymax }]. *)
Record Extent := mkExtent { xmin : Q; ymin : Q; xmax : Q; ymax : Q }.

(** [window: [col0, row0, col1, row1]]. *)
Record PixelWindow := mkPixelWindow
  { col0 : Z; row0 : Z; col1 : Z; row1 : Z }.

(** The request handed to [image.readRasters]; the band that comes back has
    [width = outW] and [height = outH]. *)
Record ReadRequest := mkReadRequest
  { window : PixelWindow; outW : Z; outH : Z }.

(** [Math.min(...xs)] and [Math.max(...xs)] of a non-empty argument list. *)
Definition minimum (x : Q) (xs : list Q) : Q := fold_left Qmin xs x.
Definition maximum (x : Q) (xs : list Q) : Q := fold_left Qmax xs x.

Section Reprojection.

(** [proj4('EPSG:4326', 'EPSG:' + epsg, [x, y])]: the external projection
    library, indexed by the target code. *)
Variable proj4 : Z -> Q * Q -> Q * Q.


(** Lines 32-54. *)
Definition reproject (epsg : Z) (b : BBox) : Extent :=
  if (epsg =? 4326)%Z then
    {| xmin := west b; ymin := south b; xmax := east b; ymax := north b |}
  else
    let p1 := proj4 epsg (west b, south b) in
    let p2 := proj4 epsg (east b, south b) in
    let p3 := proj4 epsg (east b, north b) in
    let p4 := proj4 epsg (west b, north b) in
    {| xmin := minimum (fst p1) [fst p2; fst p3; fst p4];
       ymin := minimum (snd p1) [snd p2; snd p3; snd p4];
       xmax := maximum (fst p1) [fst p2; fst p3; fst p4];
       ymax := maximum (snd p1) [snd p2; snd p3; snd p4] |}.

End Reprojection.

(** [(p - origin) / res] as the source evaluates it: the difference is
    rounded to a double, then the quotient is. *)
Definition pixelCoord (p origin res : Q) : Q :=
  Double.div (Double.sub p origin) res.

(** Lines 61-64: native coordinates to raw pixel bounds (for a resolution
    that is not zero). *)
Definition rawWindow (gt : GeoTransform) (utm : Extent) : PixelWindow :=
  {| col0 := JsMath.floor (pixelCoord (xmin utm) (originX gt) (xRes gt));
     row0 := JsMath.floor (pixelCoord (ymax utm) (originY gt) (yRes gt));
     col1 := JsMath.ceil (pixelCoord (xmax utm) (originX gt) (xRes gt));
     row1 := JsMath.ceil (pixelCoord (ymin utm) (originY gt) (yRes gt)) |}.

(** Lines 69-72: [Math.max(0, .)] on the low bounds, [Math.min(full, .)] on
    the high bounds. *)
Definition clampWindow (fullW fullH : Z) (w : PixelWindow) : PixelWindow :=
  {| col0 := Z.max 0 (col0 w);
     row0 := Z.max 0 (row0 w);
     col1 := Z.min fullW (col1 w);
     row1 := Z.min fullH (row1 w) |}.

(** Lines 61-77: [None] is the [return null] of the source. *)
Definition pixelWindow (gt : GeoTransform) (utm : Extent) (fullW fullH : Z)
  : option PixelWindow :=
  let w := clampWindow fullW fullH (rawWindow gt utm) in
  if ((col1 w <=? col0 w) || (row1 w <=? row0 w))%Z then None else Some w.

(** Lines 82-86. *)
Definition maxDim : Q := 1024.

Definition outputScale (winW winH : Z) : Q :=
  Qmin 1 (maxDim / inject_Z (Z.max winW winH)).

Definition outputSize (w : PixelWindow) : Z * Z :=
  let winW := (col1 w - col0 w)%Z in
  let winH := (row1 w - row0 w)%Z in
  let scale := outputScale winW winH in
  (Z.max 1 (JsMath.round (inject_Z winW * scale)),
   Z.max 1 (JsMath.round (inject_Z winH * scale))).

(** Lines 32-97, up to the call of [image.readRasters]. *)
Definition readCOGWindow (proj4 : Z -> Q * Q -> Q * Q)
  (gt : GeoTransform) (epsg fullW fullH : Z) (bboxWGS84 : BBox)
  : option ReadRequest :=
  match pixelWindow gt (reproject proj4 epsg bboxWGS84) fullW fullH with
  | None => None
  | Some w =>
      let (ow, oh) := outputSize w in
      Some {| window := w; outW := ow; outH := oh |}
  end.

(** *** The mapper as the specification words it *)

(** Clamp of a bound into [[0, full]]. *)
Definition clampInto (full z : Z) : Z := Z.min full (Z.max 0 z).

Definition spec_pixelWindow (gt : GeoTransform) (utm : Extent) (fullW fullH : Z)
  : option PixelWindow :=
  let c0 := clampInto fullW (Qfloor (pixelCoord (xmin utm) (originX gt) (xRes gt))) in
  let r0 := clampInto fullH (Qfloor (pixelCoord (ymax utm) (originY gt) (yRes gt))) in
  let c1 := clampInto fullW (Qceiling (pixelCoord (xmax utm) (originX gt) (xRes gt))) in
  let r1 := clampInto fullH (Qceiling (pixelCoord (ymin utm) (originY gt) (yRes gt))) in
  if ((c1 <=? c0) || (r1 <=? r0))%Z then None
  else Some {| col0 := c0; row0 := r0; col1 := c1; row1 := r1 |}.

(** The AOI lies inside the raster footprint. *)
Definition insideFootprint (gt : GeoTransform) (utm : Extent) (fullW fullH : Z)
  : Prop :=
  originX gt <= xmin utm /\
  xmax utm <= originX gt + inject_Z fullW * xRes gt /\
  originY gt + inject_Z fullH * yRes gt <= ymin utm /\
  ymax utm <= originY gt.

(** The AOI lies beyond an edge of the raster footprint: at or beyond the
    west or the north edge, or at least a hundredth of a pixel beyond the
    east or the south edge. *)
Definition beyondFootprint (gt : GeoTransform) (utm : Extent) (fullW fullH : Z)
  : Prop :=
  xmax utm <= originX gt \/
  originX gt + (inject_Z fullW + (1 # 100)) * xRes gt <= xmin utm \/
  originY gt <= ymin utm \/
  ymax utm <= originY gt + (inject_Z fullH + (1 # 100)) * yRes gt.

(** The AOI is at least a hundredth of a pixel wide and high. *)
Definition notThin (gt : GeoTransform) (utm : Extent) : Prop :=
  xRes gt / 100 <= xmax utm - xmin utm /\
  - yRes gt / 100 <= ymax utm - ymin utm.

(** A resolution for which, on a raster of at most [sideCap] pixels a side,
    no rounding of [pixelCoord] inside the footprint overflows or loses its
    precision to underflow. *)
Definition moderate (res : Q) : Prop :=
  Double.pow2 (-900) <= Qabs res /\ Qabs res <= Double.pow2 900.

Definition sideCap : Z := 2 ^ 40.

(** [PixelWindow] invariant of the data model. *)
Definition validWindow (fullW fullH : Z) (w : PixelWindow) : Prop :=
  (0 <= col0 w < col1 w)%Z /\ (col1 w <= fullW)%Z /\
  (0 <= row0 w < row1 w)%Z /\ (row1 w <= fullH)%Z.


(** *** Worked inputs *)

(** A 1000 x 1000 raster at 30 m with origin (500000, 4000000) and an AOI
    covering pixels 100..200 in both directions. *)
Definition gt_example : GeoTransform :=
  {| originX := 500000; originY := 4000000; xRes := 30; yRes := - (30) |}.
Definition aoi_example : Extent :=
  {| xmin := 503000; ymin := 3994000; xmax := 506000; ymax := 3997000 |}.

(** A raster of 400000 x 400000 pixels at 30 m with origin (-5000000, 0) and
    an AOI inside its footprint, [2^-33] m wide: every coordinate is a
    double. *)
Definition gt_wide : GeoTransform :=
  {| originX := - (5000000); originY := 0; xRes := 30; yRes := - (30) |}.
Definition aoi_sliver : Extent :=
  {| xmin := 1000000 - Double.pow2 (-33); ymin := - (3000);
     xmax := 1000000; ymax := - (1500) |}.

(** A projection that shears the rectangle, so that the image of the AOI is
    not axis-aligned. *)
Definition shear (epsg : Z) (p : Q * Q) : Q * Q :=
  (500000 + 80000 * fst p + 1000 * snd p, 111000 * snd p - 500 * fst p).



End Cog.

(** ** [computeNDVIArray] *)

Module Ndvi.
Import Js.

(** A band window [{ data, width, height }] as [readCOGWindow] returns it. *)
Record Band := mkBand { data : list num; width : nat; height : nat }.

(** Landsat Collection 2 Level-2 reflectance scale. *)
Definition SCALE : Q := 275 # 10000000.
Definition OFFSET : Q := - (2 # 10).

(** [arr[i]] used as a number: a read past the end is [undefined], which
    arithmetic turns into [NaN]. *)
Definition sample (arr : list num) (i : nat) : num := default NaN (arr !! i).

(** [Math.max(0, Math.min(1, raw * SCALE + OFFSET))]. *)
Definition reflectance (raw : num) : num :=
  max (Fin 0) (min (Fin 1) (add (mul raw (Fin SCALE)) (Fin OFFSET))).

(** [denom > 0 ? (n - r) / denom : NaN]. *)
Definition index (r n : num) : num :=
  let denom := add n r in
  if gt denom (Fin 0) then div (sub n r) denom else NaN.

(** The value the loop body computes for flat index [i]. *)
Definition value (red nir : list num) (i : nat) : num :=
  index (reflectance (sample red i)) (reflectance (sample nir i)).

(** The variables the loop updates. *)
Record Acc := mkAcc
  { ndvi : list num; sum : num; cnt : Z; veg : Z; minV : num; maxV : num }.

(** [new Float32Array(n)] with the initial accumulators. *)
Definition init (n : nat) : Acc :=
  {| ndvi := replicate n (Fin 0); sum := Fin 0; cnt := 0%Z; veg := 0%Z;
     minV := PosInf; maxV := NegInf |}.

(** One iteration of the loop (lines 135-146). *)
Definition step (red nir : list num) (s : Acc) (i : nat) : Acc :=
  let v := value red nir i in
  let out := <[ i := v ]> (ndvi s) in
  if isNaN v then
    {| ndvi := out; sum := sum s; cnt := cnt s; veg := veg s;
       minV := minV s; maxV := maxV s |}
  else
    {| ndvi := out;
       sum := add (sum s) v;
       cnt := (cnt s + 1)%Z;
       veg := if gt v (Fin (3 # 10)) then (veg s + 1)%Z else veg s;
       minV := if lt v (minV s) then v else minV s;
       maxV := if gt v (maxV s) then v else maxV s |}.

(** [for (let i = 0; i < width * height; i++)]. *)
Definition loop (red nir : list num) (n : nat) : Acc :=
  foldl (step red nir) (init n) (seq 0 n).

Record Stats := mkStats
  { stat_min : num; stat_mean : num; stat_max : num; vegPct : num }.

Record Result := mkResult
  { res_ndvi : list num; res_width : nat; res_height : nat; stats : Stats }.

Definition ofZ (z : Z) : num := Fin (inject_Z z).

(** Lines 119-156. *)
Definition computeNDVIArray (redData nirData : Band) : Result :=
  let w := Nat.min (width redData) (width nirData) in
  let h := Nat.min (height redData) (height nirData) in
  let s := loop (data redData) (data nirData) (w * h) in
  let mean := if (0 <? cnt s)%Z then div (sum s) (ofZ (cnt s)) else Fin 0 in
  let pct :=
    if (0 <? cnt s)%Z then mul (div (ofZ (veg s)) (ofZ (cnt s))) (Fin 100)
    else Fin 0 in
  {| res_ndvi := ndvi s; res_width := w; res_height := h;
     stats := {| stat_min := minV s; stat_mean := mean;
                 stat_max := maxV s; vegPct := pct |} |}.

(** The sample of a row-major grid of the given width at ([col], [row]). *)
Definition at_grid (arr : list num) (w col row : nat) : num :=
  sample arr (row * w + col).

(** *** Ranges, valid samples and the loop invariant *)

(** A reflectance or index value that is either missing or finite within
    bounds. *)
Definition within (lo hi : Q) (a : num) : Prop :=
  a = NaN \/ exists q, a = Fin q /\ lo <= q /\ q <= hi.

Definition valid (v : num) : bool := negb (isNaN v).

(** The number of valid (non-NoData) samples of an index array. *)
Definition validCount (vs : list num) : Z :=
  Z.of_nat (length (List.filter valid vs)).

(** What the accumulators hold once the values [vs] have been folded in. *)
Definition AccInv (vs : list num) (s : Acc) : Prop :=
  cnt s = validCount vs /\
  (0 <= veg s <= cnt s)%Z /\
  (cnt s = 0%Z -> sum s = Fin 0 /\ minV s = PosInf /\ maxV s = NegInf) /\
  ((0 < cnt s)%Z ->
   exists qs lo hi,
     sum s = Fin qs /\ minV s = Fin lo /\ maxV s = Fin hi /\
     -1 <= lo /\ lo <= hi /\ hi <= 1 /\
     inject_Z (cnt s) * lo <= qs /\ qs <= inject_Z (cnt s) * hi).

(** *** Worked inputs *)

(** A 2 x 1 window: vegetation in the first pixel, equal bands in the second. *)
Definition red_pair : Band := {| data := [Fin 8000; Fin 12000]; width := 2; height := 1 |}.
Definition nir_pair : Band := {| data := [Fin 20000; Fin 12000]; width := 2; height := 1 |}.

(** A 2 x 2 window of the fill value 0 in both bands. *)
Definition fill_band : Band :=
  {| data := [Fin 0; Fin 0; Fin 0; Fin 0]; width := 2; height := 2 |}.

(** A red window one column wider than the near-infrared window. *)
Definition red_wide : Band :=
  {| data := [Fin 8000; Fin 8000; Fin 30000; Fin 8000; Fin 8000; Fin 8000];
     width := 3; height := 2 |}.
Definition nir_narrow : Band :=
  {| data := [Fin 20000; Fin 20000; Fin 20000; Fin 20000];
     width := 2; height := 2 |}.

Definition empty_band : Band := {| data := []; width := 0; height := 0 |}.

(** Two windows of one width and different heights. *)
Definition red_tall : Band :=
  {| data := [Fin 8000; Fin 9000; Fin 10000; Fin 11000; Fin 12000; Fin 13000];
     width := 2; height := 3 |}.

End Ndvi.

(** ** Colormaps: [applyColormap], [interp], [renderNDVIToCanvas] *)

Module Palette.

(** A colour stop [[r, g, b]]. *)
Definition Color : Type := (Z * Z * Z)%type.

(** [stops[i]]: [undefined] (here [None]) outside [0 .. length-1]. *)
Definition stopAt (stops : list Color) (i : Z) : option Color :=
  if (i <? 0)%Z then None else stops !! Z.to_nat i.

(** [a + (b - a) * f], rounded. *)
Definition mix (a b : Z) (f : Q) : Z :=
  JsMath.round (inject_Z a + (inject_Z b - inject_Z a) * f).

(** Lines 202-214.  [None] is the [TypeError] raised when [a] or [b] is
    [undefined] and is indexed. *)
Definition interp (t : Q) (stops : list Color) : option Color :=
  let n := (Z.of_nat (length stops) - 1)%Z in
  let pos := t * inject_Z n in
  let i := Z.min (JsMath.floor pos) (n - 1) in
  let f := pos - inject_Z i in
  let a := stopAt stops i in
  let b := match stopAt stops (i + 1) with
           | Some c => Some c
           | None => stopAt stops n
           end in
  match a, b with
  | Some (a0, a1, a2), Some (b0, b1, b2) =>
      Some (mix a0 b0 f, mix a1 b1 f, mix a2 b2 f)
  | _, _ => None
  end.

Definition greens : list Color := [ (247,252,245); (0,109,44) ]%Z.
Definition viridis : list Color :=
  [ (68,1,84); (59,82,139); (33,145,140); (94,201,98); (253,231,37) ]%Z.
Definition spectral : list Color :=
  [ (158,1,66); (213,62,79); (253,174,97); (255,255,191); (171,221,164);
    (43,131,186); (94,79,162) ]%Z.
Definition ylgn : list Color := [ (255,255,229); (120,198,121); (0,104,55) ]%Z.
Definition rdylgn : list Color :=
  [ (165,0,38); (215,48,39); (244,109,67); (253,174,97); (254,224,139);
    (255,255,191); (217,239,139); (166,217,106); (102,189,99); (26,152,80);
    (0,104,55) ]%Z.

(** The [switch (name)] of [applyColormap]; [rdylgn] is also the default. *)
Definition stopsOf (name : string) : list Color :=
  if String.eqb name "greens" then greens
  else if String.eqb name "viridis" then viridis
  else if String.eqb name "spectral" then spectral
  else if String.eqb name "ylgn" then ylgn
  else rdylgn.

(** Lines 186-200. *)
Definition applyColormap (t : Q) (name : string) : option Color :=
  interp t (stopsOf name).

(** The palette names the [switch] lists. *)
Definition supported : list string :=
  [ "greens"; "viridis"; "spectral"; "ylgn"; "rdylgn" ]%string.

(** One pixel of [renderNDVIToCanvas] (lines 167-179): the RGBA bytes written
    for the sample [v]. *)
Definition normalize (v : Js.num) : Js.num :=
  Js.max (Js.Fin 0) (Js.min (Js.Fin 1) (Js.div (Js.add v (Js.Fin 1)) (Js.Fin 2))).

Definition renderPixel (v : Js.num) (name : string) : option (Color * Z) :=
  if Js.isNaN v then Some ((30, 30, 30)%Z, 0%Z)
  else
    match normalize v with
    | Js.Fin t =>
        match applyColormap t name with
        | Some c => Some (c, 255%Z)
        | None => None
        end
    | _ => None
    end.

(** [ctx.createImageData(width, height)] (line 164): the number of bytes of
    the buffer; [None] is the [IndexSizeError] the canvas throws when a side
    is zero. *)
Definition createImageData (width height : nat) : option nat :=
  if ((width =? 0) || (height =? 0))%nat then None
  else Some (4 * (width * height))%nat.

(** Lines 160-183: the image data written to the canvas, one RGBA quadruple
    per pixel.  A read past the end of [ndvi] is [undefined], for which
    [isNaN] is true. *)
Definition renderNDVIToCanvas (ndvi : list Js.num) (width height : nat)
  (name : string) : option (list (Color * Z)) :=
  match createImageData width height with
  | None => None
  | Some _ =>
      mapM (fun i => renderPixel (default Js.NaN (ndvi !! i)) name)
           (seq 0 (width * height))
  end.

Definition firstStop (stops : list Color) : option Color := head stops.
Definition lastStop (stops : list Color) : option Color := last stops.

(** The colour with the opaque alpha byte the renderer writes. *)
Definition opaque (c : option Color) : option (Color * Z) :=
  match c with Some c => Some (c, 255%Z) | None => None end.

End Palette.

(** ** [signUrl] *)

Module Stac.

(** What one [fetch] of the signing endpoint does: it rejects, or it resolves
    to a response with a status and a body; [href = None] is a body that
    [res.json()] cannot parse. *)
Inductive FetchResult : Type :=
| Rejected
| Response (status : Z) (href : option string).

(** [res.ok]. *)
Definition ok (status : Z) : bool := ((200 <=? status) && (status <=? 299))%Z.

Inductive Error : Type :=
| FetchFailed                (* the error [fetch] or [res.json()] raised *)
| HttpError (status : Z)     (* "URL signing failed: HTTP status" *)
| RateLimited.               (* "URL signing failed after 4 attempts" *)

Inductive Outcome : Type :=
| Returned (href : string)
| Thrown (e : Error).

Definition MAX_RETRIES : nat := 4.

(** The effects of [signUrl], in the order they happen. *)
Inductive Event : Type :=
| Fetch (attempt : nat)
| Sleep (ms : Z).

(** The [catch] block: rethrow on the last attempt, otherwise sleep, double
    the delay and go round the loop again. *)
Definition catch (attempt : nat) (e : Error) (delay : Z) (trace : list Event)
  (again : Z -> list Event -> Outcome * list Event) : Outcome * list Event :=
  if (attempt =? MAX_RETRIES)%nat then (Thrown e, trace)
  else again (delay * 2)%Z (trace ++ [Sleep delay]).

(** The [for] loop with [remaining] iterations left; [fetch k] is the result
    of the fetch made in attempt [k], [trace] the effects so far. *)
Fixpoint attempts (fetch : nat -> FetchResult) (remaining attempt : nat)
  (delay : Z) (trace : list Event) : Outcome * list Event :=
  match remaining with
  | O => (Thrown RateLimited, trace)
  | S remaining' =>
      let again := attempts fetch remaining' (S attempt) in
      let trace := trace ++ [Fetch attempt] in
      match fetch attempt with
      | Rejected => catch attempt FetchFailed delay trace again
      | Response status body =>
          if ok status then
            match body with
            | Some href => (Returned href, trace)
            | None => catch attempt FetchFailed delay trace again
            end
          else if (status =? 429)%Z then
            again (delay * 2)%Z (trace ++ [Sleep delay])
          else catch attempt (HttpError status) delay trace again
      end
  end.

(** Lines 249-284: the outcome and the effects, in order. *)
Definition signUrl (fetch : nat -> FetchResult) : Outcome * list Event :=
  attempts fetch MAX_RETRIES 1 800%Z [].

(** The delays slept and the number of fetches made in a trace. *)
Definition sleeps (trace : list Event) : list Z :=
  omap (fun e => match e with Sleep ms => Some ms | Fetch _ => None end) trace.

Definition isFetch (e : Event) : bool :=
  match e with Fetch _ => true | Sleep _ => false end.

Definition fetchCount (trace : list Event) : nat :=
  length (List.filter isFetch trace).


(** The delays of [k] successive sleeps starting from [d]. *)
Fixpoint backoff (d : Z) (k : nat) : list Z :=
  match k with
  | O => []
  | S k' => d :: backoff (d * 2)%Z k'
  end.

(** *** Worked inputs *)

(** A server error on the first attempt, success on the second. *)
Definition fetch_500_then_ok (k : nat) : FetchResult :=
  match k with
  | 1%nat => Response 500 None
  | _ => Response 200 (Some "https://signed.example/red.tif"%string)
  end.

(** A server error on every attempt. *)
Definition fetch_always_500 (k : nat) : FetchResult := Response 500 None.

End Stac.

(** ** [getEPSG] *)

Module Epsg.

(** [return 32601]: the fallback code (UTM zone 1N). *)
Definition fallback : Z := 32601.

(** The test of one key entry: [keyId === 3072 && val > 0] or
    [keyId === 2048 && val > 0]; [val] is [undefined] (here [None]) when the
    entry is cut short, and [undefined > 0] is false. *)
Definition entryCode (keyId : Z) (val : option Z) : option Z :=
  match val with
  | Some v =>
      if ((keyId =? 3072) && (0 <? v))%Z then Some v
      else if ((keyId =? 2048) && (0 <? v))%Z then Some v
      else None
  | None => None
  end.

(** The loop [for (let i = 4; i < geoKeys.length; i += 4)] from index [i],
    with [fuel] iterations left; [None] is the exit of the loop. *)
Fixpoint scan (fuel : nat) (geoKeys : list Z) (i : nat) : option Z :=
  match fuel with
  | O => None
  | S fuel' =>
      match geoKeys !! i with
      | None => None
      | Some keyId =>
          match entryCode keyId (geoKeys !! (i + 3)%nat) with
          | Some v => Some v
          | None => scan fuel' geoKeys (i + 4)
          end
      end
  end.

(** Lines 103-114.  The argument is [image.fileDirectory.GeoKeyDirectory];
    [None] is a missing tag (replaced by [[]]) or a missing file directory
    (the exception is caught).  The loop runs at most [length / 4] times, so
    [length] iterations are enough. *)
Definition getEPSG (geoKeyDirectory : option (list Z)) : Z :=
  match geoKeyDirectory with
  | None => fallback
  | Some geoKeys => default fallback (scan (length geoKeys) geoKeys 4)
  end.

(** The code the entry at index [i] names, if it names one. *)
Definition codeAt (geoKeys : list Z) (i : nat) : option Z :=
  match geoKeys !! i with
  | Some keyId => entryCode keyId (geoKeys !! (i + 3)%nat)
  | None => None
  end.


End Epsg.

(** ** [findKey] and [resolveBandKeys] *)

Module Bands.

(** A STAC asset; as an object it is truthy. *)
Record Asset := mkAsset { href : string }.

(** [feature.assets]: the own properties of the object in insertion order
    (the order of [Object.keys]); the keys of an object are distinct. *)
Definition Assets : Type := list (string * Asset).

(** The own property [key] of the object, if it has one. *)
Fixpoint ownAsset (assets : Assets) (key : string) : option Asset :=
  match assets with
  | [] => None
  | (k, a) :: rest => if String.eqb k key then Some a else ownAsset rest key
  end.

(** The names every object inherits from [Object.prototype]. *)
Definition objectPrototype : list string :=
  [ "constructor"; "__defineGetter__"; "__defineSetter__"; "hasOwnProperty";
    "__lookupGetter__"; "__lookupSetter__"; "isPrototypeOf";
    "propertyIsEnumerable"; "toString"; "valueOf"; "__proto__";
    "toLocaleString" ]%string.

(** What a property read finds: an asset of the object, or a member of
    [Object.prototype]; both are truthy. *)
Inductive Property :=
| OwnAsset (a : Asset)
| Inherited (name : string).

(** [assets[key]]: the own property, else the inherited one; [None] is
    [undefined]. *)
Definition getAsset (assets : Assets) (key : string) : option Property :=
  match ownAsset assets key with
  | Some a => Some (OwnAsset a)
  | None =>
      if existsb (String.eqb key) objectPrototype
      then Some (Inherited key) else None
  end.

(** [Object.keys(assets)]. *)
Definition keysOf (assets : Assets) : list string := map fst assets.

(** Lines 293-298; [None] is [null]. *)
Fixpoint findKey (assets : Assets) (candidates : list string) : option string :=
  match candidates with
  | [] => None
  | key :: rest =>
      match getAsset assets key with
      | Some _ => Some key
      | None => findKey assets rest
      end
  end.

(** [toLowerCase] on the ASCII letters. *)
Definition lowerAscii (c : Ascii.ascii) : Ascii.ascii :=
  let n := Ascii.nat_of_ascii c in
  if ((65 <=? n) && (n <=? 90))%nat then Ascii.ascii_of_nat (n + 32) else c.

Fixpoint toLowerCase (s : string) : string :=
  match s with
  | EmptyString => EmptyString
  | String c s' => String (lowerAscii c) (toLowerCase s')
  end.

(** [s.includes(sub)]. *)
Definition includes (s sub : string) : bool :=
  match String.index 0 sub s with
  | Some _ => true
  | None => false
  end.

Definition redCandidates : list string :=
  [ "red"; "SR_B4"; "sr_b4"; "SR_B3"; "sr_b3"; "B4"; "B3" ]%string.

Definition nirCandidates : list string :=
  [ "nir08"; "nir"; "SR_B5"; "sr_b5"; "SR_B4"; "sr_b4"; "B5"; "B4" ]%string.

(** The filter of the guard: [k !== redKey] and the lower-cased key includes
    ["nir"], ["b5"] or ["b4"]. *)
Definition nirLike (redKey k : string) : bool :=
  negb (String.eqb k redKey) &&
  (includes (toLowerCase k) "nir" || includes (toLowerCase k) "b5"
   || includes (toLowerCase k) "b4").

(** Lines 300-320: [{ redKey, nirKey }]. *)
Definition resolveBandKeys (assets : Assets) : option string * option string :=
  let redKey := findKey assets redCandidates in
  let nirKey := findKey assets nirCandidates in
  let nirKey :=
    match nirKey, redKey with
    | Some n, Some r =>
        if String.eqb n r
        then findKey assets (List.filter (nirLike r) (keysOf assets))
        else Some n
    | _, _ => nirKey
    end in
  (redKey, nirKey).

(** [key in assets]: an own key or an inherited name. *)
Definition hasProperty (assets : Assets) (key : string) : Prop :=
  In key (keysOf assets) \/ In key objectPrototype.

(** *** Worked inputs *)

(** Landsat 8/9 assets under the surface-reflectance names. *)
Definition sr_assets : Assets :=
  [ ("SR_B2", mkAsset "b2.tif"); ("SR_B3", mkAsset "b3.tif");
    ("SR_B4", mkAsset "b4.tif"); ("SR_B5", mkAsset "b5.tif") ]%string.

End Bands.

(** ** The hover lookup of [setNDVIOverlay] *)

Module MapView.

(** Lines 113-117 of map.js: the cell under the pointer, [None] when the
    guard [col >= 0 && col < pixelW && row >= 0 && row < pixelH] fails
    (for a box with [west <> east] and [south <> north]). *)
Definition hoverCell (west south east north : Q) (pixelW pixelH : Z)
  (lat lng : Q) : option (Z * Z) :=
  let col := JsMath.floor ((lng - west) / (east - west) * inject_Z pixelW) in
  let row := JsMath.floor ((north - lat) / (north - south) * inject_Z pixelH) in
  if ((0 <=? col) && (col <? pixelW) && (0 <=? row) && (row <? pixelH))%Z
  then Some (col, row) else None.



(** The centre of the cell ([col], [row]) of a [pixelW] x [pixelH] grid laid
    over the box. *)
Definition cellCentre (west south east north : Q) (pixelW pixelH : Z)
  (col row : Z) : Q * Q :=
  (north - (inject_Z row + (1 # 2)) / inject_Z pixelH * (north - south),
   west + (inject_Z col + (1 # 2)) / inject_Z pixelW * (east - west)).

End MapView.

(** ** [buildLegend] *)

Module Legend.

(** [x / (W - 1)]. *)
Definition position (x W : nat) : Js.num :=
  Js.div (Js.Fin (inject_Z (Z.of_nat x)))
         (Js.Fin (inject_Z (Z.of_nat W - 1))).

(** The colours the loop of [buildLegend] paints, one per column of a bar
    [W] pixels wide; [None] is the [TypeError] of a failed lookup.  For
    [t = NaN] the slot is [NaN] and [stops[NaN]] is [undefined]; the position
    is never infinite, since [x = 0] when [W = 1]. *)
Definition buildLegend (W : nat) (cmapName : string) : option (list Palette.Color) :=
  mapM (fun x =>
          match position x W with
          | Js.Fin t => Palette.applyColormap t cmapName
          | _ => None
          end)
       (seq 0 W).

End Legend.

(** ** Colour channels as bytes *)

Module Bytes.

Definition isByte (z : Z) : Prop := (0 <= z <= 255)%Z.

Definition validColor (c : Palette.Color) : Prop :=
  let '(r, g, b) := c in isByte r /\ isByte g /\ isByte b.

(** [z] lies between [a] and [b], whichever is the larger. *)
Definition between (a b z : Z) : Prop := (Z.min a b <= z <= Z.max a b)%Z.

End Bytes.

(** ** The statistics of [computeNDVIArray] against the values of the loop *)

Module NdviStats.
Import Js Ndvi.

(** The running minimum and maximum after the values [vs]. *)
Definition Extremes (vs : list num) (s : Acc) : Prop :=
  (forall q, In (Fin q) vs ->
     exists lo hi, minV s = Fin lo /\ maxV s = Fin hi /\ lo <= q /\ q <= hi) /\
  (minV s = PosInf \/ exists lo, minV s = Fin lo /\ In (Fin lo) vs) /\
  (maxV s = NegInf \/ exists hi, maxV s = Fin hi /\ In (Fin hi) vs).

End NdviStats.

(** ** Answers of the signing endpoint *)

Module Retry.
Import Stac.

(** The fetch resolved to an ok response with a body that parses. *)
Definition succeeded (r : FetchResult) : bool :=
  match r with
  | Response status (Some _) => ok status
  | _ => false
  end.

End Retry.
(** * Properties *)

(** ** Facts about [Math.floor], [Math.ceil] and [Math.round] *)

Module JsMathFacts.
Import JsMath.

Lemma round_Z (z : Z) : round (inject_Z z) = z.
Proof.
  unfold round.
  assert (L : (z <= Qfloor (inject_Z z + (1 # 2)))%Z).
  { rewrite <- (Qfloor_Z z) at 1. apply Qfloor_resp_le. lra. }
  assert (U : (Qfloor (inject_Z z + (1 # 2)) < z + 1)%Z).
  { rewrite Zlt_Qlt. eapply Qle_lt_trans; [apply Qfloor_le|].
    rewrite inject_Z_plus. change (inject_Z 1) with 1. lra. }
  lia.
Qed.

Lemma round_lower (x : Q) : x - (1 # 2) < inject_Z (round x).
Proof.
  unfold round. pose proof (Qlt_floor (x + (1 # 2))) as H.
  rewrite inject_Z_plus in H. change (inject_Z 1) with 1 in H. lra.
Qed.

Lemma round_upper (x : Q) : inject_Z (round x) <= x + (1 # 2).
Proof. unfold round. apply Qfloor_le. Qed.

Lemma round_mono (x y : Q) : x <= y -> (round x <= round y)%Z.
Proof. intros H. unfold round. apply Qfloor_resp_le. lra. Qed.

Lemma round_proper (x y : Q) : x == y -> round x = round y.
Proof.
  intros H. apply Z.le_antisymm; apply round_mono; rewrite H; apply Qle_refl.
Qed.

Lemma round_eq (x : Q) (z : Z) : x == inject_Z z -> round x = z.
Proof. intros H. rewrite (round_proper _ _ H). apply round_Z. Qed.

Lemma floor_nonneg (x : Q) : 0 <= x -> (0 <= floor x)%Z.
Proof. intros H. change 0%Z with (Qfloor 0). apply Qfloor_resp_le, H. Qed.

Lemma floor_ge (x : Q) (z : Z) : inject_Z z <= x -> (z <= floor x)%Z.
Proof. intros H. rewrite <- (Qfloor_Z z). apply Qfloor_resp_le, H. Qed.

Lemma ceil_le (x : Q) (z : Z) : x <= inject_Z z -> (ceil x <= z)%Z.
Proof. intros H. rewrite <- (Qceiling_Z z). apply Qceiling_resp_le, H. Qed.

Lemma floor_lt_ceil (x y : Q) : x < y -> (floor x < ceil y)%Z.
Proof.
  intros H. rewrite Zlt_Qlt.
  eapply Qle_lt_trans; [apply Qfloor_le|].
  eapply Qlt_le_trans; [exact H|apply Qle_ceiling].
Qed.

End JsMathFacts.


(** ** Division by a signed resolution *)

Lemma Qdiv_pos_le (a b c : Q) : 0 < c -> a <= b -> a / c <= b / c.
Proof.
  intros Hc H. unfold Qdiv. apply Qmult_le_compat_r; [exact H|].
  apply Qlt_le_weak, Qinv_lt_0_compat, Hc.
Qed.

Lemma Qdiv_pos_lt (a b c : Q) : 0 < c -> a < b -> a / c < b / c.
Proof.
  intros Hc H. unfold Qdiv. apply Qmult_lt_compat_r; [|exact H].
  apply Qinv_lt_0_compat, Hc.
Qed.

Lemma Qdiv_neg_flip (a c : Q) : c < 0 -> a / c == (- a) / (- c).
Proof. intros Hc. field. lra. Qed.

Lemma Qdiv_mul_cancel (a c : Q) : ~ c == 0 -> (a * c) / c == a.
Proof. intros Hc. field. exact Hc. Qed.

(** ** Rounding to the nearest double *)

Module DoubleFacts.
Import Double.

Lemma pow2_pos (e : Z) : 0 < pow2 e.
Proof. apply Qpower_0_lt. reflexivity. Qed.

Lemma pow2_plus (a b : Z) : pow2 (a + b) == pow2 a * pow2 b.
Proof. apply Qpower_plus. discriminate. Qed.

Lemma pow2_nat (n : Z) : (0 <= n)%Z -> pow2 n == inject_Z (2 ^ n).
Proof. intros H. unfold pow2. rewrite Zpower_Qpower by exact H. reflexivity. Qed.

Lemma rne_bounds (x : Q) :
  (Qfloor x <= rne x <= Qfloor x + 1)%Z /\
  - (1 # 2) <= inject_Z (rne x) - x <= 1 # 2.
Proof.
  unfold rne.
  pose proof (Qfloor_le x) as L. pose proof (Qlt_floor x) as U.
  rewrite inject_Z_plus in U. change (inject_Z 1) with 1 in U.
  destruct (Qcompare_spec (x - inject_Z (Qfloor x)) (1 # 2)) as [E|E|E].
  - destruct (Z.even (Qfloor x)).
    + split; [lia|]. lra.
    + split; [lia|]. rewrite inject_Z_plus. change (inject_Z 1) with 1. lra.
  - split; [lia|]. lra.
  - split; [lia|]. rewrite inject_Z_plus. change (inject_Z 1) with 1. lra.
Qed.

Lemma rne_nonneg (x : Q) : 0 <= x -> (0 <= rne x)%Z.
Proof.
  intros H. destruct (rne_bounds x) as [[L _] _].
  assert ((0 <= Qfloor x)%Z); [|lia].
  apply (Qfloor_resp_le 0 x) in H. exact H.
Qed.

Lemma rne_nonpos (x : Q) : x <= 0 -> (rne x <= 0)%Z.
Proof.
  intros H. destruct (rne_bounds x) as [_ [_ U]].
  rewrite Zle_Qle. change (inject_Z 0) with 0.
  destruct (Z_le_gt_dec (rne x) 0) as [L|G].
  - rewrite Zle_Qle in L. exact L.
  - assert (1 <= inject_Z (rne x)).
    { change 1 with (inject_Z 1). rewrite <- Zle_Qle. lia. }
    lra.
Qed.

Lemma binade_le (x : Q) : ~ x == 0 -> pow2 (binade x) <= Qabs x.
Proof.
  intros Hx. unfold binade.
  destruct (Qle_bool _ _) eqn:E; [apply Qle_bool_iff; exact E|].
  destruct x as [n d]. cbn [Qnum Qden].
  assert (Hn : (0 < Z.abs n)%Z).
  { assert (n <> 0%Z); [|lia]. intros ->. apply Hx. reflexivity. }
  set (a := Z.log2 (Z.abs n)). set (b := Z.log2 (Z.pos d)).
  assert (Ha : (0 <= a)%Z) by apply Z.log2_nonneg.
  assert (Hb : (0 <= b)%Z) by apply Z.log2_nonneg.
  destruct (Z.log2_spec (Z.abs n) Hn) as [A _]. fold a in A.
  destruct (Z.log2_spec (Z.pos d) ltac:(lia)) as [_ B]. fold b in B.
  replace (a - b - 1)%Z with (a - (b + 1))%Z by lia.
  unfold pow2. rewrite Qpower_minus by discriminate.
  fold (pow2 a) (pow2 (b + 1)).
  rewrite (pow2_nat a Ha), (pow2_nat (b + 1)) by lia.
  assert (Q1 : inject_Z (2 ^ a) <= inject_Z (Z.abs n)) by (rewrite <- Zle_Qle; exact A).
  assert (Q2 : inject_Z (Z.pos d) <= inject_Z (2 ^ (b + 1))).
  { rewrite <- Zle_Qle. replace (Z.succ b) with (b + 1)%Z in B by lia. lia. }
  assert (Q3 : 0 < inject_Z (Z.pos d)) by reflexivity.
  assert (Q4 : Qabs (n # d) == inject_Z (Z.abs n) / inject_Z (Z.pos d)).
  { unfold Qabs. unfold Qeq, Qdiv, Qmult, Qinv, inject_Z; cbn. lia. }
  rewrite Q4.
  apply Qle_shift_div_l; [lra|].
  assert (Q5 : 0 <= inject_Z (2 ^ a)).
  { change 0 with (inject_Z 0). rewrite <- Zle_Qle. apply Z.pow_nonneg. lia. }
  set (P := inject_Z (2 ^ a)) in *. set (N := inject_Z (Z.abs n)) in *.
  set (D := inject_Z (Z.pos d)) in *. set (R := inject_Z (2 ^ (b + 1))) in *.
  assert (0 < R) by lra.
  assert (E1 : P / R * D == P * D / R) by (field; lra).
  rewrite E1. apply Qle_shift_div_r; [assumption|]. nra.
Qed.

Lemma binade_gt (x : Q) : ~ x == 0 -> Qabs x < pow2 (binade x + 1).
Proof.
  intros Hx. unfold binade.
  destruct (Qle_bool _ _) eqn:E.
  - destruct x as [n d]. cbn [Qnum Qden]. clear E.
    assert (Hn : (0 < Z.abs n)%Z).
    { assert (n <> 0%Z); [|lia]. intros ->. apply Hx. reflexivity. }
    set (a := Z.log2 (Z.abs n)). set (b := Z.log2 (Z.pos d)).
    assert (Ha : (0 <= a)%Z) by apply Z.log2_nonneg.
    assert (Hb : (0 <= b)%Z) by apply Z.log2_nonneg.
    destruct (Z.log2_spec (Z.abs n) Hn) as [_ A]. fold a in A.
    destruct (Z.log2_spec (Z.pos d) ltac:(lia)) as [B _]. fold b in B.
    replace (a - b + 1)%Z with ((a + 1) - b)%Z by lia.
    unfold pow2. rewrite Qpower_minus by discriminate.
    fold (pow2 (a + 1)) (pow2 b).
    rewrite (pow2_nat (a + 1)), (pow2_nat b Hb) by lia.
    assert (Q1 : inject_Z (Z.abs n) < inject_Z (2 ^ (a + 1))).
    { rewrite <- Zlt_Qlt. replace (Z.succ a) with (a + 1)%Z in A by lia. lia. }
    assert (Q2 : inject_Z (2 ^ b) <= inject_Z (Z.pos d)) by (rewrite <- Zle_Qle; exact B).
    assert (Q3 : 0 < inject_Z (2 ^ b)).
    { change 0 with (inject_Z 0). rewrite <- Zlt_Qlt. apply Z.pow_pos_nonneg; lia. }
    assert (Q4 : Qabs (n # d) == inject_Z (Z.abs n) / inject_Z (Z.pos d)).
    { unfold Qabs. unfold Qeq, Qdiv, Qmult, Qinv, inject_Z; cbn. lia. }
    assert (Q5 : 0 < inject_Z (Z.abs n)).
    { change 0 with (inject_Z 0). rewrite <- Zlt_Qlt. exact Hn. }
    rewrite Q4.
    set (P := inject_Z (2 ^ (a + 1))) in *. set (N := inject_Z (Z.abs n)) in *.
    set (D := inject_Z (Z.pos d)) in *. set (R := inject_Z (2 ^ b)) in *.
    apply Qlt_shift_div_r; [lra|].
    assert (E1 : P / R * D == P * D / R) by (field; lra).
    rewrite E1. apply Qlt_shift_div_l; [assumption|]. nra.
  - replace (Z.log2 (Z.abs (Qnum x)) - Z.log2 (Z.pos (Qden x)) - 1 + 1)%Z
      with (Z.log2 (Z.abs (Qnum x)) - Z.log2 (Z.pos (Qden x)))%Z by lia.
    apply Qnot_le_lt. intros C. apply Qle_bool_iff in C. congruence.
Qed.

Lemma rnd_nonneg (x : Q) : 0 <= x -> 0 <= rnd x.
Proof.
  intros H. unfold rnd. destruct (Qeq_bool x 0); [lra|]. cbv zeta.
  set (u := pow2 _). assert (Hu : 0 < u) by apply pow2_pos.
  assert (0 <= x / u) by (apply Qle_shift_div_l; [exact Hu|lra]).
  assert (0 <= inject_Z (rne (x / u))).
  { change 0 with (inject_Z 0). rewrite <- Zle_Qle. apply rne_nonneg. assumption. }
  nra.
Qed.

Lemma rnd_nonpos (x : Q) : x <= 0 -> rnd x <= 0.
Proof.
  intros H. unfold rnd. destruct (Qeq_bool x 0); [lra|]. cbv zeta.
  set (u := pow2 _). assert (Hu : 0 < u) by apply pow2_pos.
  assert (x / u <= 0) by (apply Qle_shift_div_r; [exact Hu|lra]).
  assert (inject_Z (rne (x / u)) <= 0).
  { change 0 with (inject_Z 0). rewrite <- Zle_Qle. apply rne_nonpos. assumption. }
  nra.
Qed.

Lemma eps_pos : 0 < eps.
Proof. apply pow2_pos. Qed.

Lemma eta_pos : 0 < eta.
Proof. apply pow2_pos. Qed.

(** The error of one rounding. *)
Lemma rnd_error (x : Q) : Qabs (rnd x - x) <= eps * Qabs x + eta.
Proof.
  pose proof eps_pos as He. pose proof eta_pos as Ht.
  pose proof (Qabs_nonneg x) as Hx.
  unfold rnd. destruct (Qeq_bool x 0) eqn:E.
  - apply Qeq_bool_iff in E.
    assert (A : Qabs (0 - x) == 0) by (rewrite E; reflexivity).
    rewrite A. nra.
  - cbv zeta. assert (N : ~ x == 0).
    { intros C. apply Qeq_bool_iff in C. congruence. }
    set (e := Z.max (binade x) (-1022)).
    set (u := pow2 (e - 52)). assert (Hu : 0 < u) by apply pow2_pos.
    destruct (rne_bounds (x / u)) as [_ [L U]].
    set (k := inject_Z (rne (x / u))) in *.
    assert (X : x == (x / u) * u) by (field; lra).
    assert (B : Qabs (k * u - x) <= (1 # 2) * u).
    { apply Qabs_Qle_condition. set (t := x / u) in *. split.
      - rewrite X at 1. nra.
      - rewrite X at 1. nra. }
    eapply Qle_trans; [exact B|].
    assert (S : (1 # 2) * u == pow2 (e - 53)).
    { unfold u. replace (e - 52)%Z with ((e - 53) + 1)%Z by lia.
      rewrite pow2_plus. change (pow2 1) with 2. field. }
    rewrite S.
    destruct (Z.max_spec (binade x) (-1022)) as [[_ M]|[_ M]]; fold e in M.
    + rewrite M. change (pow2 (-1022 - 53)) with eta. nra.
    + rewrite M. replace (binade x - 53)%Z with (-53 + binade x)%Z by lia.
      rewrite pow2_plus. fold eps.
      pose proof (binade_le x N). nra.
Qed.

(** *** Worked roundings *)

(** The double nearest to one tenth. *)
Example rnd_tenth : rnd (1 # 10) == 3602879701896397 # 36028797018963968.
Proof. vm_compute. reflexivity. Qed.

(** Ties go to the even neighbour. *)
Example rnd_ties_even :
  rnd (1 + pow2 (-53)) == 1 /\ rnd (1 + 3 * pow2 (-53)) == 1 + pow2 (-51).
Proof. split; vm_compute; reflexivity. Qed.

(** Below [2^-1022] the spacing is [2^-1074]. *)
Example rnd_subnormal :
  rnd (pow2 (-1075)) == 0 /\ rnd (3 * pow2 (-1075)) == pow2 (-1073).
Proof. split; vm_compute; reflexivity. Qed.

End DoubleFacts.
(** ** The pixel window mapper *)

Module CogFacts.
Import Cog JsMath JsMathFacts Double DoubleFacts.

Ltac zcases :=
  repeat match goal with
         | |- context [ (?a <=? ?b)%Z ] => destruct (Z.leb_spec a b)
         end.

(** The one-sided clamps of the source and the two-sided clamp of the
    specification agree on every input. *)
Lemma pixelWindow_refines (gt : GeoTransform) (utm : Extent) (fullW fullH : Z) :
  (0 <= fullW)%Z -> (0 <= fullH)%Z ->
  pixelWindow gt utm fullW fullH = spec_pixelWindow gt utm fullW fullH.
Proof.
  intros HW HH.
  unfold pixelWindow, spec_pixelWindow, clampWindow, rawWindow, clampInto,
    floor, ceil; cbn [col0 col1 row0 row1].
  generalize (Qfloor (pixelCoord (xmin utm) (originX gt) (xRes gt)))
    (Qfloor (pixelCoord (ymax utm) (originY gt) (yRes gt)))
    (Qceiling (pixelCoord (xmax utm) (originX gt) (xRes gt)))
    (Qceiling (pixelCoord (ymin utm) (originY gt) (yRes gt))).
  intros c0 r0 c1 r1.
  zcases; cbn [orb]; try reflexivity; try lia.
  f_equal. f_equal; lia.
Qed.

Lemma pixelWindow_valid (gt : GeoTransform) (utm : Extent) (fullW fullH : Z)
  (w : PixelWindow) :
  pixelWindow gt utm fullW fullH = Some w -> validWindow fullW fullH w.
Proof.
  unfold pixelWindow, validWindow.
  set (c := clampWindow _ _ _).
  destruct (Z.leb_spec (col1 c) (col0 c)); cbn [orb]; [discriminate|].
  destruct (Z.leb_spec (row1 c) (row0 c)); [discriminate|].
  intros E. injection E as <-. subst c.
  unfold clampWindow in *; cbn [col0 col1 row0 row1] in *. lia.
Qed.

(** *** Rounded pixel coordinates *)

Lemma Qdiv_sign_pos (a c : Q) : 0 < c -> a / c <= 0 -> a <= 0.
Proof.
  intros Hc H. assert (E : a == (a / c) * c) by (field; lra). nra.
Qed.

Lemma Qdiv_sign_neg (a c : Q) : 0 < c -> 0 <= a / c -> 0 <= a.
Proof.
  intros Hc H. assert (E : a == (a / c) * c) by (field; lra). nra.
Qed.

Lemma pixelCoord_nonpos (p o r : Q) :
  ~ r == 0 -> (p - o) / r <= 0 -> pixelCoord p o r <= 0.
Proof.
  intros Hr H. unfold pixelCoord, div, sub. apply rnd_nonpos.
  destruct (Q_dec r 0) as [[N|P]|Z]; [| |contradiction].
  - rewrite (Qdiv_neg_flip (p - o) _ N) in H.
    rewrite (Qdiv_neg_flip (rnd (p - o)) _ N).
    assert (Hn : 0 < - r) by lra.
    apply Qdiv_sign_pos in H; [|exact Hn].
    apply Qle_shift_div_r; [exact Hn|].
    pose proof (rnd_nonneg (p - o) ltac:(lra)). lra.
  - apply Qdiv_sign_pos in H; [|exact P].
    apply Qle_shift_div_r; [exact P|].
    pose proof (rnd_nonpos (p - o) H). lra.
Qed.

Lemma pixelCoord_nonneg (p o r : Q) :
  ~ r == 0 -> 0 <= (p - o) / r -> 0 <= pixelCoord p o r.
Proof.
  intros Hr H. unfold pixelCoord, div, sub. apply rnd_nonneg.
  destruct (Q_dec r 0) as [[N|P]|Z]; [| |contradiction].
  - rewrite (Qdiv_neg_flip (p - o) _ N) in H.
    rewrite (Qdiv_neg_flip (rnd (p - o)) _ N).
    assert (Hn : 0 < - r) by lra.
    apply Qdiv_sign_neg in H; [|exact Hn].
    apply Qle_shift_div_l; [exact Hn|].
    pose proof (rnd_nonpos (p - o) ltac:(lra)). lra.
  - apply Qdiv_sign_neg in H; [|exact P].
    apply Qle_shift_div_l; [exact P|].
    pose proof (rnd_nonneg (p - o) H). lra.
Qed.

Lemma Qabs_div (a b : Q) : Qabs (a / b) == Qabs a * / Qabs b.
Proof. unfold Qdiv. rewrite Qabs_Qmult, Qabs_Qinv. reflexivity. Qed.

Lemma tiny_bound :
  eta * pow2 900 * (1 + eps) + eta <= pow2 (-170) /\ eps <= 1.
Proof. split; apply Qle_bool_iff; vm_compute; reflexivity. Qed.

(** The error of the two roundings of [pixelCoord]. *)
Lemma pixelCoord_error (p o r : Q) :
  pow2 (-900) <= Qabs r ->
  Qabs (pixelCoord p o r - (p - o) / r)
  <= 3 * eps * Qabs ((p - o) / r) + pow2 (-170).
Proof.
  intros Hr. unfold pixelCoord, div, sub.
  set (d := p - o). set (D := rnd d).
  pose proof (rnd_error d) as E1. fold D in E1.
  pose proof (rnd_error (D / r)) as E2.
  pose proof eps_pos as He. pose proof eta_pos as Ht.
  destruct tiny_bound as [T1 T2].
  pose proof (pow2_pos (-900)) as Hm.
  assert (Hir : / Qabs r <= pow2 900).
  { apply Qle_shift_inv_r; [lra|].
    assert (X : pow2 900 * pow2 (-900) == 1) by (rewrite <- pow2_plus; reflexivity).
    pose proof (pow2_pos 900). nra. }
  assert (Hi0 : 0 < / Qabs r) by (apply Qinv_lt_0_compat; lra).
  assert (Rn : ~ r == 0).
  { intros C. rewrite C in Hr. change (Qabs 0) with 0 in Hr. lra. }
  assert (S1 : D / r - d / r == (D - d) / r) by (field; exact Rn).
  assert (A1 : Qabs (D / r - d / r) == Qabs (D - d) * / Qabs r).
  { rewrite S1. apply Qabs_div. }
  assert (A2 : Qabs (d / r) == Qabs d * / Qabs r) by apply Qabs_div.
  assert (A3 : Qabs (D / r) <= Qabs (d / r) + Qabs (D / r - d / r)).
  { assert (X : D / r == d / r + (D / r - d / r)) by ring.
    rewrite X at 1. apply Qabs_triangle. }
  assert (A4 : Qabs (rnd (D / r) - d / r)
               <= Qabs (rnd (D / r) - D / r) + Qabs (D / r - d / r)).
  { assert (X : rnd (D / r) - d / r
                 == (rnd (D / r) - D / r) + (D / r - d / r)) by ring.
    rewrite X. apply Qabs_triangle. }
  pose proof (Qabs_nonneg d) as N1.
  set (ir := / Qabs r) in *. set (a := Qabs d) in *.
  set (b := Qabs (D - d)) in *. set (c := Qabs (D / r - d / r)) in *.
  set (q := Qabs (d / r)) in *. set (q' := Qabs (D / r)) in *.
  set (f := Qabs (rnd (D / r) - D / r)) in *.
  set (g := Qabs (rnd (D / r) - d / r)) in *.
  set (t := pow2 (-170)) in *. set (m := pow2 900) in *.
  assert (B1 : c <= eps * q + eta * ir).
  { rewrite A1, A2. nra. }
  assert (B2 : eta * ir <= eta * m) by nra.
  assert (B3 : 0 <= q) by (rewrite A2; nra).
  assert (B4 : eps * (eps * q) <= eps * q).
  { assert (Z : 0 <= eps * q) by nra. set (z := eps * q) in *. nra. }
  assert (B5 : eps * (eta * m) == eta * m * eps) by ring.
  assert (B6 : eps * c <= eps * (eps * q) + eps * (eta * m)).
  { assert (Z : c <= eps * q + eta * m) by lra.
    set (z := eps * q) in *. set (y := eta * m) in *. nra. }
  assert (B7 : eps * q' <= eps * q + eps * c) by nra.
  nra.
Qed.

Lemma thousandth_bound :
  3 * eps * pow2 41 + pow2 (-170) <= 1 # 1000 /\ 3 * eps <= 1.
Proof. split; apply Qle_bool_iff; vm_compute; reflexivity. Qed.

Lemma nonzero_of_bound (r : Q) : pow2 (-900) <= Qabs r -> ~ r == 0.
Proof.
  intros Hr C. rewrite C in Hr. change (Qabs 0) with 0 in Hr.
  pose proof (pow2_pos (-900)). lra.
Qed.

(** A pixel coordinate that is exactly at most [B] is computed as at most
    [B] and a thousandth; one that is exactly at least [B] is computed as
    at least [B] less a thousandth. *)
Lemma pixelCoord_upper (p o r B : Q) :
  pow2 (-900) <= Qabs r -> 0 <= B -> B <= pow2 41 ->
  (p - o) / r <= B -> pixelCoord p o r <= B + (1 # 1000).
Proof.
  intros Hr B0 B1 H. pose proof (nonzero_of_bound r Hr) as Rn.
  destruct (Qlt_le_dec 0 ((p - o) / r)) as [P|N].
  - pose proof (pixelCoord_error p o r Hr) as E.
    rewrite (Qabs_pos ((p - o) / r)) in E by lra.
    apply Qabs_Qle_condition in E. destruct E as [_ E].
    destruct thousandth_bound as [T _]. pose proof eps_pos.
    set (q := (p - o) / r) in *. set (t := pow2 (-170)) in *.
    set (m := pow2 41) in *.
    assert (3 * eps * q <= 3 * eps * m) by nra. lra.
  - pose proof (pixelCoord_nonpos p o r Rn N). lra.
Qed.

Lemma pixelCoord_lower (p o r B : Q) :
  pow2 (-900) <= Qabs r -> 0 <= B -> B <= pow2 41 ->
  B <= (p - o) / r -> B - (1 # 1000) <= pixelCoord p o r.
Proof.
  intros Hr B0 B1 H.
  pose proof (pixelCoord_error p o r Hr) as E.
  rewrite (Qabs_pos ((p - o) / r)) in E by lra.
  apply Qabs_Qle_condition in E. destruct E as [E _].
  destruct thousandth_bound as [T T']. pose proof eps_pos.
  set (q := (p - o) / r) in *. set (t := pow2 (-170)) in *.
  set (m := pow2 41) in *.
  assert (3 * eps * B <= 3 * eps * m) by nra.
  assert ((1 - 3 * eps) * B <= (1 - 3 * eps) * q) by nra.
  lra.
Qed.

Lemma floor_below (x : Q) (z : Z) : x < inject_Z z -> (floor x < z)%Z.
Proof.
  intros H. rewrite Zlt_Qlt. eapply Qle_lt_trans; [apply Qfloor_le|exact H].
Qed.

Lemma ceil_above (x : Q) (z : Z) : inject_Z z < x -> (z < ceil x)%Z.
Proof.
  intros H. rewrite Zlt_Qlt. eapply Qlt_le_trans; [exact H|apply Qle_ceiling].
Qed.

Lemma cap_bound (z : Z) : (z <= sideCap)%Z -> inject_Z z + 2 <= pow2 41.
Proof.
  intros H. rewrite Zle_Qle in H.
  assert (E : inject_Z sideCap + 2 <= pow2 41)
    by (apply Qle_bool_iff; vm_compute; reflexivity).
  lra.
Qed.

Lemma inject_nonneg (z : Z) : (0 <= z)%Z -> 0 <= inject_Z z.
Proof. intros H. rewrite Zle_Qle in H. exact H. Qed.

(** One axis of the window: [lo] is the coordinate that gives the low pixel
    bound and [hi] the one that gives the high bound. *)
Lemma axis_nonempty (lo hi o r : Q) (full : Z) :
  pow2 (-900) <= Qabs r -> (full <= sideCap)%Z ->
  0 <= (lo - o) / r -> (hi - o) / r <= inject_Z full ->
  (lo - o) / r + (1 # 100) <= (hi - o) / r ->
  (Z.max 0 (floor (pixelCoord lo o r))
   < Z.min full (ceil (pixelCoord hi o r)))%Z.
Proof.
  intros Hr Hc L0 H1 Hw.
  pose proof (cap_bound full Hc) as Cb.
  pose proof (pixelCoord_upper lo o r ((lo - o) / r) Hr L0 ltac:(lra)
                ltac:(lra)) as U.
  pose proof (pixelCoord_lower hi o r ((hi - o) / r) Hr ltac:(lra) ltac:(lra)
                ltac:(lra)) as L.
  set (a := pixelCoord lo o r) in *. set (b := pixelCoord hi o r) in *.
  assert (F1 : (floor a < ceil b)%Z) by (apply floor_lt_ceil; lra).
  assert (F2 : (floor a < full)%Z) by (apply floor_below; lra).
  assert (F3 : (0 < ceil b)%Z) by (apply ceil_above; change (inject_Z 0) with 0; lra).
  assert (F4 : (0 < full)%Z).
  { rewrite Zlt_Qlt. change (inject_Z 0) with 0. lra. }
  lia.
Qed.

Lemma axis_empty_low (lo hi o r : Q) (full : Z) :
  pow2 (-900) <= Qabs r -> (hi - o) / r <= 0 ->
  (Z.min full (ceil (pixelCoord hi o r))
   <= Z.max 0 (floor (pixelCoord lo o r)))%Z.
Proof.
  intros Hr H. pose proof (nonzero_of_bound r Hr) as Rn.
  pose proof (pixelCoord_nonpos hi o r Rn H) as N.
  assert ((ceil (pixelCoord hi o r) <= 0)%Z); [|lia].
  apply ceil_le. exact N.
Qed.

Lemma axis_empty_high (lo hi o r : Q) (full : Z) :
  pow2 (-900) <= Qabs r -> (0 <= full <= sideCap)%Z ->
  inject_Z full + (1 # 100) <= (lo - o) / r ->
  (Z.min full (ceil (pixelCoord hi o r))
   <= Z.max 0 (floor (pixelCoord lo o r)))%Z.
Proof.
  intros Hr [F0 Hc] H.
  pose proof (cap_bound full Hc) as Cb. pose proof (inject_nonneg full F0).
  pose proof (pixelCoord_lower lo o r (inject_Z full + (1 # 100)) Hr
                ltac:(lra) ltac:(lra) H) as L.
  assert ((full <= floor (pixelCoord lo o r))%Z); [|lia].
  apply floor_ge. lra.
Qed.

Lemma axis_covers (lo hi o r : Q) (full c : Z) :
  pow2 (-900) <= Qabs r -> (full <= sideCap)%Z -> (0 <= c < full)%Z ->
  (lo - o) / r <= inject_Z c + (99 # 100) ->
  inject_Z c + (1 # 100) <= (hi - o) / r ->
  (Z.max 0 (floor (pixelCoord lo o r)) <= c
   < Z.min full (ceil (pixelCoord hi o r)))%Z.
Proof.
  intros Hr Hc [C0 C1] L H.
  pose proof (cap_bound full Hc) as Cb. pose proof (inject_nonneg c C0).
  assert (inject_Z c <= inject_Z full) by (rewrite <- Zle_Qle; lia).
  pose proof (pixelCoord_upper lo o r (inject_Z c + (99 # 100)) Hr
                ltac:(lra) ltac:(lra) L) as U.
  pose proof (pixelCoord_lower hi o r (inject_Z c + (1 # 100)) Hr
                ltac:(lra) ltac:(lra) H) as V.
  assert (F1 : (floor (pixelCoord lo o r) < c + 1)%Z).
  { apply floor_below. rewrite inject_Z_plus. change (inject_Z 1) with 1. lra. }
  assert (F2 : (c < ceil (pixelCoord hi o r))%Z) by (apply ceil_above; lra).
  lia.
Qed.

Lemma axis_tight (lo hi o r : Q) (full c : Z) :
  pow2 (-900) <= Qabs r -> (full <= sideCap)%Z ->
  (Z.max 0 (floor (pixelCoord lo o r)) <= c
   < Z.min full (ceil (pixelCoord hi o r)))%Z ->
  inject_Z c - (1 # 100) < (hi - o) / r /\
  (lo - o) / r < inject_Z c + 1 + (1 # 100).
Proof.
  intros Hr Hc [C0 C1].
  pose proof (cap_bound full Hc) as Cb.
  assert (Hc0 : (0 <= c)%Z) by lia. pose proof (inject_nonneg c Hc0).
  assert (inject_Z c <= inject_Z full) by (rewrite <- Zle_Qle; lia).
  pose proof (nonzero_of_bound r Hr) as Rn.
  split.
  - destruct (Qlt_le_dec (inject_Z c - (1 # 100)) ((hi - o) / r)) as [?|N];
      [assumption|exfalso].
    assert ((ceil (pixelCoord hi o r) <= c)%Z); [|lia].
    apply ceil_le.
    destruct (Z.eq_dec c 0%Z) as [->|Cn].
    + change (inject_Z 0) with 0 in *.
      apply (pixelCoord_nonpos hi o r Rn). lra.
    + assert (1 <= inject_Z c).
      { change 1 with (inject_Z 1). rewrite <- Zle_Qle. lia. }
      pose proof (pixelCoord_upper hi o r (inject_Z c - (1 # 100)) Hr
                    ltac:(lra) ltac:(lra) N). lra.
  - destruct (Qlt_le_dec ((lo - o) / r) (inject_Z c + 1 + (1 # 100))) as [?|N];
      [assumption|exfalso].
    assert ((c + 1 <= floor (pixelCoord lo o r))%Z); [|lia].
    apply floor_ge. rewrite inject_Z_plus. change (inject_Z 1) with 1.
    pose proof (pixelCoord_lower lo o r (inject_Z c + 1 + (1 # 100)) Hr
                  ltac:(lra) ltac:(lra) N). lra.
Qed.

(** With origin and resolution one tenth (as a double) and [x] four tenths,
    the exact pixel coordinate is 3 and the computed one is the next double
    above 3, so [Math.ceil] gives 4. *)
Example pixelCoord_overshoot :
  let t := rnd (1 # 10) in
  rnd (4 * t) == 4 * t /\
  ceil ((4 * t - t) / t) = 3%Z /\ ceil (pixelCoord (4 * t) t t) = 4%Z.
Proof. vm_compute. repeat split. Qed.

(** A coordinate exactly on the east edge of a raster three pixels wide
    (origin -1, resolution the double above one third) is computed as a
    coordinate in the last pixel. *)
Example pixelCoord_east_edge :
  let r := 6004799503160662 # 18014398509481984 in
  rnd r == r /\ - (1) + 3 * r == pow2 (-53) /\
  floor (pixelCoord (pow2 (-53)) (- (1)) r) = 2%Z.
Proof. vm_compute. repeat split. Qed.

(** *** The window of an AOI beyond, and of one inside, the footprint *)

Lemma quot_ge (a r B : Q) : 0 < r -> B * r <= a -> B <= a / r.
Proof. intros Hr H. apply Qle_shift_div_l; assumption. Qed.

Lemma quot_le (a r B : Q) : 0 < r -> a <= B * r -> a / r <= B.
Proof. intros Hr H. apply Qle_shift_div_r; assumption. Qed.

Lemma quot_ge_neg (a r B : Q) : r < 0 -> a <= B * r -> B <= a / r.
Proof.
  intros Hr H. rewrite (Qdiv_neg_flip _ _ Hr).
  apply Qle_shift_div_l; lra.
Qed.

Lemma quot_le_neg (a r B : Q) : r < 0 -> B * r <= a -> a / r <= B.
Proof.
  intros Hr H. rewrite (Qdiv_neg_flip _ _ Hr).
  apply Qle_shift_div_r; lra.
Qed.

Lemma pixelWindow_beyond (gt : GeoTransform) (utm : Extent) (fullW fullH : Z) :
  0 < xRes gt -> yRes gt < 0 -> moderate (xRes gt) -> moderate (yRes gt) ->
  (0 <= fullW <= sideCap)%Z -> (0 <= fullH <= sideCap)%Z ->
  beyondFootprint gt utm fullW fullH ->
  pixelWindow gt utm fullW fullH = None.
Proof.
  intros Hx Hy [Mx _] [My _] HW HH Hout.
  unfold pixelWindow, clampWindow, rawWindow; cbn [col0 col1 row0 row1].
  destruct Hout as [H | [H | [H | H]]].
  - pose proof (axis_empty_low (xmin utm) (xmax utm) (originX gt) (xRes gt)
                  fullW Mx ltac:(apply quot_le; [exact Hx|lra])) as E.
    apply Z.leb_le in E. rewrite E. reflexivity.
  - pose proof (axis_empty_high (xmin utm) (xmax utm) (originX gt) (xRes gt)
                  fullW Mx HW ltac:(apply quot_ge; [exact Hx|lra])) as E.
    apply Z.leb_le in E. rewrite E. reflexivity.
  - pose proof (axis_empty_low (ymax utm) (ymin utm) (originY gt) (yRes gt)
                  fullH My ltac:(apply quot_le_neg; [exact Hy|lra])) as E.
    apply Z.leb_le in E. rewrite E, orb_true_r. reflexivity.
  - pose proof (axis_empty_high (ymax utm) (ymin utm) (originY gt) (yRes gt)
                  fullH My HH ltac:(apply quot_ge_neg; [exact Hy|lra])) as E.
    apply Z.leb_le in E. rewrite E, orb_true_r. reflexivity.
Qed.

Lemma pixelWindow_inside (gt : GeoTransform) (utm : Extent) (fullW fullH : Z) :
  0 < xRes gt -> yRes gt < 0 -> moderate (xRes gt) -> moderate (yRes gt) ->
  (fullW <= sideCap)%Z -> (fullH <= sideCap)%Z ->
  insideFootprint gt utm fullW fullH -> notThin gt utm ->
  exists w, pixelWindow gt utm fullW fullH = Some w /\
            validWindow fullW fullH w.
Proof.
  intros Hx Hy [Mx _] [My _] HW HH (H1 & H2 & H3 & H4) (Tx & Ty).
  assert (Ex : ((xmin utm - originX gt) / xRes gt + (1 # 100)) * xRes gt
               == xmin utm - originX gt + xRes gt / 100) by (field; lra).
  assert (Ey : ((ymax utm - originY gt) / yRes gt + (1 # 100)) * yRes gt
               == ymax utm - originY gt - (- yRes gt / 100)) by (field; lra).
  pose proof (axis_nonempty (xmin utm) (xmax utm) (originX gt) (xRes gt) fullW
                Mx HW
                ltac:(apply quot_ge; [exact Hx|lra])
                ltac:(apply quot_le; [exact Hx|lra])
                ltac:(apply quot_ge; [exact Hx|lra])) as C.
  pose proof (axis_nonempty (ymax utm) (ymin utm) (originY gt) (yRes gt) fullH
                My HH
                ltac:(apply quot_ge_neg; [exact Hy|lra])
                ltac:(apply quot_le_neg; [exact Hy|lra])
                ltac:(apply quot_ge_neg; [exact Hy|lra])) as R.
  destruct (pixelWindow gt utm fullW fullH) as [w|] eqn:E.
  - exists w. split; [reflexivity|]. apply (pixelWindow_valid _ _ _ _ _ E).
  - exfalso. unfold pixelWindow, clampWindow, rawWindow in E;
      cbn [col0 col1 row0 row1] in E.
    apply Z.ltb_lt in C, R. rewrite Z.ltb_antisym in C, R.
    apply negb_true_iff in C, R. rewrite C, R in E. discriminate.
Qed.

(** C1 as stated fails in its last part: the source divides in doubles.
    On a 400000 x 400000 raster at 30 m with origin (-5000000, 0), the AOI
    with [x] from [1000000 - 2^-33] to [1000000] and [y] from -3000 to
    -1500 lies inside the footprint and is not empty, and each of its
    coordinates is a double; the difference [xmin - originX] rounds to
    6000000, both column bounds come out as 200000, and the mapper answers
    with the sentinel.  With exact quotients the column bounds would be
    199999 and 200000. *)
Lemma C1_window_counterexample :
  0 < xRes gt_wide /\ yRes gt_wide < 0 /\
  insideFootprint gt_wide aoi_sliver 400000 400000 /\
  xmin aoi_sliver < xmax aoi_sliver /\ ymin aoi_sliver < ymax aoi_sliver /\
  rnd (xmin aoi_sliver) == xmin aoi_sliver /\
  (Qfloor ((xmin aoi_sliver - originX gt_wide) / xRes gt_wide)
   < Qceiling ((xmax aoi_sliver - originX gt_wide) / xRes gt_wide))%Z /\
  col0 (rawWindow gt_wide aoi_sliver) = 200000%Z /\
  col1 (rawWindow gt_wide aoi_sliver) = 200000%Z /\
  pixelWindow gt_wide aoi_sliver 400000 400000 = None.
Proof.
  split; [reflexivity|]. split; [reflexivity|].
  split; [unfold insideFootprint; repeat split; vm_compute; discriminate|].
  split; [reflexivity|]. split; [reflexivity|].
  split; [vm_compute; reflexivity|].
  split; [vm_compute; reflexivity|].
  split; [vm_compute; reflexivity|].
  split; vm_compute; reflexivity.
Qed.

(** C1, amended. For a geotransform with [xRes > 0] and [yRes < 0], a
    native-CRS extent and the full raster size, the mapper returns exactly
    what the specification words: the floor/ceil bounds of the quotients
    (computed in doubles), each clamped into [[0, fullWidth]] /
    [[0, fullHeight]], and the no-intersection sentinel when the clamped
    bounds are empty.  A window that is returned is never of negative or zero
    size and lies within the raster.  For resolutions between [2^-900] and
    [2^900] in size and rasters of at most [2^40] pixels a side: an extent at
    or beyond the west or north edge of the footprint, or a hundredth of a
    pixel beyond its east or south edge, gives the sentinel; an extent
    inside the footprint that is at least a hundredth of a pixel wide and
    high gives a non-empty window within the raster. *)
Theorem C1_window_amended (gt : GeoTransform) (utm : Extent) (fullW fullH : Z) :
  0 < xRes gt -> yRes gt < 0 -> (0 <= fullW)%Z -> (0 <= fullH)%Z ->
  pixelWindow gt utm fullW fullH = spec_pixelWindow gt utm fullW fullH /\
  (forall w, pixelWindow gt utm fullW fullH = Some w ->
             validWindow fullW fullH w) /\
  (moderate (xRes gt) -> moderate (yRes gt) ->
   (fullW <= sideCap)%Z -> (fullH <= sideCap)%Z ->
   (beyondFootprint gt utm fullW fullH ->
    pixelWindow gt utm fullW fullH = None) /\
   (insideFootprint gt utm fullW fullH -> notThin gt utm ->
    exists w, pixelWindow gt utm fullW fullH = Some w /\
              validWindow fullW fullH w)).
Proof.
  intros Hx Hy HW HH.
  split; [apply pixelWindow_refines; assumption|].
  split; [intros w E; apply (pixelWindow_valid _ _ _ _ _ E)|].
  intros Mx My CW CH. split.
  - apply pixelWindow_beyond; try assumption; lia.
  - apply pixelWindow_inside; assumption.
Qed.

Lemma C1_window_amended_witness :
  0 < xRes gt_example /\ yRes gt_example < 0 /\
  insideFootprint gt_example aoi_example 1000 1000 /\
  notThin gt_example aoi_example /\
  exists w, pixelWindow gt_example aoi_example 1000 1000 = Some w /\
            validWindow 1000 1000 w.
Proof.
  assert (Hx : 0 < xRes gt_example) by reflexivity.
  assert (Hy : yRes gt_example < 0) by reflexivity.
  assert (Hin : insideFootprint gt_example aoi_example 1000 1000).
  { unfold insideFootprint. repeat split; vm_compute; discriminate. }
  assert (Hth : notThin gt_example aoi_example).
  { unfold notThin. split; vm_compute; discriminate. }
  assert (Mx : moderate (xRes gt_example)).
  { split; apply Qle_bool_iff; vm_compute; reflexivity. }
  assert (My : moderate (yRes gt_example)).
  { split; apply Qle_bool_iff; vm_compute; reflexivity. }
  split; [exact Hx|]. split; [exact Hy|]. split; [exact Hin|].
  split; [exact Hth|].
  destruct (C1_window_amended gt_example aoi_example 1000 1000 Hx Hy
              ltac:(lia) ltac:(lia)) as (_ & _ & H).
  destruct (H Mx My ltac:(vm_compute; discriminate)
              ltac:(vm_compute; discriminate)) as (_ & H').
  exact (H' Hin Hth).
Defined.

(** *** Output size *)

Section OutputSize.

Variables a b m s : Q.
Hypothesis Ha : 1 <= a.
Hypothesis Hb : 1 <= b.
Hypothesis Hm : m == Qmax a b.
Hypothesis Hs : s == Qmin 1 (1024 / m).

Lemma scale_facts : 0 < s /\ s <= 1 /\ a * s <= 1024 /\ b * s <= 1024 /\
                    a * s <= a /\ b * s <= b /\ 0 < a * s /\ 0 < b * s.
Proof.
  assert (Hma : a <= m) by (rewrite Hm; apply Q.le_max_l).
  assert (Hmb : b <= m) by (rewrite Hm; apply Q.le_max_r).
  assert (Hm0 : 0 < m) by lra.
  assert (Hd : 0 < 1024 / m) by (apply Qlt_shift_div_l; lra).
  assert (Hsm : s * m <= 1024).
  { assert (E : (1024 / m) * m == 1024) by (field; lra).
    rewrite <- E. apply Qmult_le_compat_r; [|lra].
    rewrite Hs. apply Q.le_min_r. }
  assert (Hs1 : s <= 1) by (rewrite Hs; apply Q.le_min_l).
  assert (Hs0 : 0 < s).
  { rewrite Hs. destruct (Q.min_spec 1 (1024 / m)) as [[_ E]|[_ E]];
      rewrite E; lra. }
  repeat split; try assumption; nra.
Qed.

End OutputSize.

Lemma inject_Z_max (x y : Z) : inject_Z (Z.max x y) == Qmax (inject_Z x) (inject_Z y).
Proof.
  destruct (Z.max_spec x y) as [[H E]|[H E]]; rewrite E.
  - symmetry. apply Q.max_r. rewrite <- Zle_Qle. lia.
  - symmetry. apply Q.max_l. rewrite <- Zle_Qle. lia.
Qed.

Lemma one_le_inject (z : Z) : (1 <= z)%Z -> 1 <= inject_Z z.
Proof. intros H. change 1 with (inject_Z 1). rewrite <- Zle_Qle. exact H. Qed.

(** One output dimension: [Math.max(1, Math.round(x))] for the exactly scaled
    size [x = win * scale]. *)
Lemma out_dim (x : Q) (win : Z) :
  0 < x -> x <= 1024 -> x <= inject_Z win -> (1 <= win)%Z ->
  let o := Z.max 1 (round x) in
  (1 <= o <= 1024)%Z /\ (o <= win)%Z /\ Qabs (inject_Z o - x) < 1.
Proof.
  intros H0 H1 H2 H3 o.
  assert (R1 : (round x <= 1024)%Z).
  { rewrite <- (round_Z 1024). apply round_mono. exact H1. }
  assert (R2 : (round x <= win)%Z).
  { rewrite <- (round_Z win). apply round_mono. exact H2. }
  pose proof (round_lower x) as L. pose proof (round_upper x) as U.
  split; [subst o; lia|]. split; [subst o; lia|].
  apply Qabs_case; intros _.
  - destruct (Z.max_spec 1 (round x)) as [[H E]|[H E]]; subst o; rewrite E.
    + lra.
    + change (inject_Z 1) with 1. lra.
  - destruct (Z.max_spec 1 (round x)) as [[H E]|[H E]]; subst o; rewrite E.
    + lra.
    + assert (inject_Z (round x) <= inject_Z 1) by (rewrite <- Zle_Qle; lia).
      change (inject_Z 1) with 1 in *. lra.
Qed.

Lemma outputSize_dims (w : PixelWindow) :
  (col0 w < col1 w)%Z -> (row0 w < row1 w)%Z ->
  let winW := (col1 w - col0 w)%Z in
  let winH := (row1 w - row0 w)%Z in
  let scale := outputScale winW winH in
  0 < inject_Z winW * scale /\ inject_Z winW * scale <= 1024 /\
  inject_Z winW * scale <= inject_Z winW /\
  0 < inject_Z winH * scale /\ inject_Z winH * scale <= 1024 /\
  inject_Z winH * scale <= inject_Z winH.
Proof.
  intros Hc Hr winW winH scale.
  assert (Ha : 1 <= inject_Z winW) by (apply one_le_inject; subst winW; lia).
  assert (Hb : 1 <= inject_Z winH) by (apply one_le_inject; subst winH; lia).
  pose proof (scale_facts (inject_Z winW) (inject_Z winH)
                (inject_Z (Z.max winW winH)) scale Ha Hb
                (inject_Z_max winW winH) (Qeq_refl _)) as F.
  tauto.
Qed.

(** A window that already fits is read at its native size. *)
Lemma outputSize_native (w : PixelWindow) :
  (col0 w < col1 w)%Z -> (row0 w < row1 w)%Z ->
  (Z.max (col1 w - col0 w) (row1 w - row0 w) <= 1024)%Z ->
  outputSize w = ((col1 w - col0 w)%Z, (row1 w - row0 w)%Z).
Proof.
  intros Hc Hr Hm. unfold outputSize.
  set (winW := (col1 w - col0 w)%Z) in *. set (winH := (row1 w - row0 w)%Z) in *.
  assert (E : outputScale winW winH == 1).
  { unfold outputScale, maxDim. apply Q.min_l.
    apply Qle_shift_div_l.
    - change 0 with (inject_Z 0). rewrite <- Zlt_Qlt. lia.
    - change 1024 with (inject_Z 1024). rewrite Qmult_1_l, <- Zle_Qle. exact Hm. }
  assert (RW : round (inject_Z winW * outputScale winW winH) = winW).
  { apply round_eq. rewrite E. ring. }
  assert (RH : round (inject_Z winH * outputScale winW winH) = winH).
  { apply round_eq. rewrite E. ring. }
  rewrite RW, RH. f_equal; lia.
Qed.





(** The end-to-end reading of the raster of [gt_example]: the AOI is mapped
    to the window [[100, 100, 200, 200]] and read at 100 x 100. *)
Example readCOGWindow_example (proj4 : Z -> Q * Q -> Q * Q) :
  readCOGWindow proj4 gt_example 4326 1000 1000
    {| west := 503000; south := 3994000; east := 506000; north := 3997000 |}
  = Some {| window := {| col0 := 100; row0 := 100; col1 := 200; row1 := 200 |};
            outW := 100; outH := 100 |}.
Proof. reflexivity. Qed.

(** An AOI entirely north of the raster gives the sentinel. *)
Example readCOGWindow_north (proj4 : Z -> Q * Q -> Q * Q) :
  readCOGWindow proj4 gt_example 4326 1000 1000
    {| west := 503000; south := 4000300; east := 506000; north := 4003000 |}
  = None.
Proof. reflexivity. Qed.

End CogFacts.

(** ** The AOI reprojector *)

Module ReprojectFacts.
Import Cog.







Section Reprojector.

Variable proj4 : Z -> Q * Q -> Q * Q.




End Reprojector.




End ReprojectFacts.

(** ** The index computer *)

Module NdviFacts.
Import Js Ndvi.

Ltac split_ands := repeat match goal with |- _ /\ _ => split end.

(** *** Comparisons *)

Lemma Qltb_spec (x y : Q) : reflect (x < y) (Qltb x y).
Proof.
  unfold Qltb. destruct (x ?= y) eqn:E; constructor.
  - apply Qeq_alt in E. rewrite E. apply Qlt_irrefl.
  - apply Qlt_alt, E.
  - apply Qgt_alt in E. apply Qle_not_lt, Qlt_le_weak, E.
Qed.

Lemma Qeq_bool_false_pos (x : Q) : 0 < x -> Qeq_bool x 0 = false.
Proof.
  intros H. destruct (Qeq_bool x 0) eqn:E; [|reflexivity].
  apply Qeq_bool_eq in E. rewrite E in H. exfalso. apply (Qlt_irrefl 0), H.
Qed.

(** *** Range of one value *)

Lemma reflectance_fin (x : Q) :
  reflectance (Fin x) = Fin (Qmax 0 (Qmin 1 (x * SCALE + OFFSET))).
Proof. reflexivity. Qed.

Lemma clamp01_range (x : Q) : 0 <= Qmax 0 (Qmin 1 x) /\ Qmax 0 (Qmin 1 x) <= 1.
Proof.
  split; [apply Q.le_max_l|].
  apply Q.max_lub; [discriminate|apply Q.le_min_l].
Qed.

Lemma reflectance_range (raw : num) : within 0 1 (reflectance raw).
Proof.
  destruct raw as [| |x|].
  - left. reflexivity.
  - right. exists 0. repeat split; discriminate.
  - right. eexists. split; [apply reflectance_fin|apply clamp01_range].
  - right. exists (Qmax 0 1). split; [reflexivity|]. split; discriminate.
Qed.

Lemma index_fin (r n : Q) :
  0 < n + r -> index (Fin r) (Fin n) = Fin ((n - r) / (n + r)).
Proof.
  intros H. unfold index, gt; cbn.
  destruct (Qltb_spec 0 (n + r)) as [_|N]; [|contradiction].
  rewrite (Qeq_bool_false_pos _ H). reflexivity.
Qed.

Lemma index_nodata (r n : Q) : ~ 0 < n + r -> index (Fin r) (Fin n) = NaN.
Proof.
  intros H. unfold index, gt; cbn.
  destruct (Qltb_spec 0 (n + r)) as [P|_]; [contradiction|reflexivity].
Qed.

Lemma index_nan_l (n : num) : index NaN n = NaN.
Proof. destruct n; reflexivity. Qed.

Lemma index_nan_r (r : num) : index r NaN = NaN.
Proof. destruct r; reflexivity. Qed.

Lemma ratio_range (r n : Q) :
  0 <= r -> 0 <= n -> 0 < n + r ->
  -1 <= (n - r) / (n + r) /\ (n - r) / (n + r) <= 1.
Proof.
  intros Hr Hn Hd. split.
  - apply Qle_shift_div_l; [exact Hd|]. lra.
  - apply Qle_shift_div_r; [exact Hd|]. lra.
Qed.

Lemma index_range (r n : num) :
  within 0 1 r -> within 0 1 n -> within (-1) 1 (index r n).
Proof.
  intros [-> | (x & -> & Hx0 & Hx1)]; [left; apply index_nan_l|].
  intros [-> | (y & -> & Hy0 & Hy1)]; [left; apply index_nan_r|].
  destruct (Qlt_le_dec 0 (y + x)) as [H|H].
  - right. exists ((y - x) / (y + x)). split; [apply index_fin, H|].
    apply ratio_range; assumption.
  - left. apply index_nodata. apply Qle_not_lt, H.
Qed.

Lemma value_range (red nir : list num) (i : nat) :
  within (-1) 1 (value red nir i).
Proof. apply index_range; apply reflectance_range. Qed.

(** *** The output array *)

Lemma ndvi_step (red nir : list num) (s : Acc) (i : nat) :
  ndvi (step red nir s i) = <[ i := value red nir i ]> (ndvi s).
Proof. unfold step. destruct (isNaN _); reflexivity. Qed.

Lemma loop_prefix (red nir : list num) (n k : nat) :
  (k <= n)%nat ->
  ndvi (foldl (step red nir) (init n) (seq 0 k)) =
    (value red nir <$> seq 0 k) ++ replicate (n - k) (Fin 0).
Proof.
  induction k as [|k IH]; intros Hk.
  - cbn. rewrite Nat.sub_0_r. reflexivity.
  - rewrite seq_S, foldl_app, fmap_app. cbn [foldl fmap list_fmap].
    rewrite ndvi_step, IH by lia.
    replace (n - k)%nat with (S (n - S k)) by lia.
    rewrite insert_app_r_alt by (rewrite length_fmap, length_seq; lia).
    rewrite length_fmap, length_seq, Nat.sub_diag. cbn.
    rewrite <- app_assoc. reflexivity.
Qed.

(** The array the loop leaves behind holds, at every flat index, the value
    computed from the two inputs at the same flat index. *)
Lemma loop_ndvi (red nir : list num) (n : nat) :
  ndvi (loop red nir n) = value red nir <$> seq 0 n.
Proof.
  unfold loop. rewrite loop_prefix by lia.
  rewrite Nat.sub_diag. cbn. apply app_nil_r.
Qed.

Lemma loop_lookup (red nir : list num) (n i : nat) :
  (i < n)%nat -> ndvi (loop red nir n) !! i = Some (value red nir i).
Proof.
  intros H. rewrite loop_ndvi, list_lookup_fmap, lookup_seq_lt by exact H.
  reflexivity.
Qed.

Lemma loop_length (red nir : list num) (n : nat) :
  length (ndvi (loop red nir n)) = n.
Proof. rewrite loop_ndvi, length_fmap. apply length_seq. Qed.

Lemma result_lookup (redData nirData : Band) (i : nat) :
  (i < Nat.min (width redData) (width nirData)
       * Nat.min (height redData) (height nirData))%nat ->
  res_ndvi (computeNDVIArray redData nirData) !! i
    = Some (value (data redData) (data nirData) i).
Proof. intros H. unfold computeNDVIArray; cbn. apply loop_lookup, H. Qed.

Lemma sample_lookup (arr : list num) (i : nat) (a : num) :
  arr !! i = Some a -> sample arr i = a.
Proof. intros H. unfold sample. rewrite H. reflexivity. Qed.


(** *** The accumulators *)

Lemma validCount_snoc (vs : list num) (v : num) :
  validCount (vs ++ [v]) = (validCount vs + if valid v then 1 else 0)%Z.
Proof.
  unfold validCount. rewrite List.filter_app, length_app. cbn.
  destruct (valid v); cbn; lia.
Qed.

Lemma AccInv_init (n : nat) : AccInv [] (init n).
Proof.
  unfold AccInv, init; cbn. repeat split; try lia; try reflexivity.
Qed.

Lemma validCount_nonneg (vs : list num) : (0 <= validCount vs)%Z.
Proof. unfold validCount. lia. Qed.

Lemma AccInv_step (red nir : list num) (vs : list num) (s : Acc) (i : nat) :
  AccInv vs s -> AccInv (vs ++ [value red nir i]) (step red nir s i).
Proof.
  intros (Hc & Hv & H0 & Hpos).
  pose proof (validCount_nonneg vs) as Hnn.
  unfold AccInv, step. rewrite validCount_snoc.
  destruct (value_range red nir i) as [E | (q & E & Hlo & Hhi)]; rewrite E.
  - cbn. rewrite Z.add_0_r. split; [exact Hc|]. split; [exact Hv|].
    split; assumption.
  - cbn [isNaN valid negb ndvi sum cnt veg minV maxV].
    split; [lia|].
    split; [destruct (gt (Fin q) (Fin (3 # 10))); lia|].
    split; [lia|]. intros _.
    destruct (Z.eq_dec (cnt s) 0%Z) as [Hz|NZ].
    + destruct (H0 Hz) as (-> & -> & ->). rewrite Hz. cbn.
      rewrite inject_Z_plus. change (inject_Z 0) with 0. change (inject_Z 1) with 1.
      exists (0 + q), q, q. split_ands; try reflexivity; lra.
    + destruct (Hpos ltac:(lia)) as (qs & lo & hi & -> & -> & -> & B).
      destruct B as (B1 & B2 & B3 & B4 & B5).
      rewrite inject_Z_plus. change (inject_Z 1) with 1.
      assert (Cp : 0 <= inject_Z (cnt s)).
      { change 0 with (inject_Z 0). rewrite <- Zle_Qle. lia. }
      unfold gt; cbn [add lt].
      exists (qs + q),
        (if Qltb q lo then q else lo), (if Qltb hi q then q else hi).
      destruct (Qltb_spec q lo) as [L|L], (Qltb_spec hi q) as [U|U];
        split_ands; try reflexivity; try lra; try nra.
Qed.

Lemma AccInv_foldl (red nir : list num) (l : list nat) (vs : list num) (s : Acc) :
  AccInv vs s ->
  AccInv (vs ++ (value red nir <$> l)) (foldl (step red nir) s l).
Proof.
  revert vs s. induction l as [|i l IH]; intros vs s H; cbn.
  - rewrite app_nil_r. exact H.
  - rewrite (cons_middle _ vs), app_assoc. apply IH, AccInv_step, H.
Qed.

Lemma AccInv_loop (red nir : list num) (n : nat) :
  AccInv (ndvi (loop red nir n)) (loop red nir n).
Proof.
  rewrite loop_ndvi. unfold loop.
  apply (AccInv_foldl red nir (seq 0 n) [] (init n)), AccInv_init.
Qed.

(** *** The statistics *)

Lemma inject_Z_pos (z : Z) : (0 < z)%Z -> 0 < inject_Z z.
Proof. intros H. change 0 with (inject_Z 0). rewrite <- Zlt_Qlt. exact H. Qed.

Lemma div_fin (x : Q) (z : Z) :
  (0 < z)%Z -> div (Fin x) (ofZ z) = Fin (x / inject_Z z).
Proof.
  intros H. unfold div, ofZ.
  rewrite (Qeq_bool_false_pos _ (inject_Z_pos z H)). reflexivity.
Qed.

(** With no valid sample the mean and the coverage are zero, and the minimum
    and maximum are still the initial [Infinity] and [-Infinity]. *)
Lemma stats_no_valid (redData nirData : Band) :
  validCount (res_ndvi (computeNDVIArray redData nirData)) = 0%Z ->
  stats (computeNDVIArray redData nirData) =
    {| stat_min := PosInf; stat_mean := Fin 0;
       stat_max := NegInf; vegPct := Fin 0 |}.
Proof.
  unfold computeNDVIArray; cbn [res_ndvi stats].
  set (s := loop _ _ _). intros H.
  destruct (AccInv_loop (data redData) (data nirData)
              (Nat.min (width redData) (width nirData)
               * Nat.min (height redData) (height nirData)))
    as (Hc & _ & H0 & _).
  fold s in Hc, H0. rewrite H in Hc.
  destruct (H0 Hc) as (_ & -> & ->). rewrite Hc. reflexivity.
Qed.

(** With at least one valid sample the three statistics are finite, ordered
    and within the index range, and the coverage is a percentage. *)
Lemma stats_ordered (redData nirData : Band) :
  (0 < validCount (res_ndvi (computeNDVIArray redData nirData)))%Z ->
  exists lo mean hi pct,
    stats (computeNDVIArray redData nirData) =
      {| stat_min := Fin lo; stat_mean := Fin mean;
         stat_max := Fin hi; vegPct := Fin pct |} /\
    -1 <= lo /\ lo <= mean /\ mean <= hi /\ hi <= 1 /\
    0 <= pct /\ pct <= 100.
Proof.
  unfold computeNDVIArray; cbn [res_ndvi stats].
  set (s := loop _ _ _). intros H.
  destruct (AccInv_loop (data redData) (data nirData)
              (Nat.min (width redData) (width nirData)
               * Nat.min (height redData) (height nirData)))
    as (Hc & Hv & _ & Hpos).
  fold s in Hc, Hv, Hpos. rewrite <- Hc in H.
  destruct (Hpos H) as (qs & lo & hi & -> & -> & -> & B1 & B2 & B3 & B4 & B5).
  apply Z.ltb_lt in H as Hb. rewrite Hb.
  change (ofZ (veg s)) with (Fin (inject_Z (veg s))).
  rewrite (div_fin qs (cnt s) H), (div_fin (inject_Z (veg s)) (cnt s) H).
  pose proof (inject_Z_pos _ H) as Cp.
  exists lo, (qs / inject_Z (cnt s)), hi,
    (inject_Z (veg s) / inject_Z (cnt s) * 100).
  split; [reflexivity|].
  assert (V0 : 0 <= inject_Z (veg s)).
  { change 0 with (inject_Z 0). rewrite <- Zle_Qle. lia. }
  assert (V1 : inject_Z (veg s) <= inject_Z (cnt s)).
  { rewrite <- Zle_Qle. lia. }
  assert (P0 : 0 <= inject_Z (veg s) / inject_Z (cnt s)).
  { apply Qle_shift_div_l; [exact Cp|]. lra. }
  assert (P1 : inject_Z (veg s) / inject_Z (cnt s) <= 1).
  { apply Qle_shift_div_r; [exact Cp|]. lra. }
  split_ands; try assumption.
  - apply Qle_shift_div_l; [exact Cp|]. lra.
  - apply Qle_shift_div_r; [exact Cp|]. lra.
  - lra.
  - lra.
Qed.


(** *** Trimming *)

Lemma result_shape (redData nirData : Band) :
  let out := computeNDVIArray redData nirData in
  res_width out = Nat.min (width redData) (width nirData) /\
  res_height out = Nat.min (height redData) (height nirData) /\
  length (res_ndvi out) = (res_width out * res_height out)%nat.
Proof.
  cbn. split; [reflexivity|]. split; [reflexivity|]. apply loop_length.
Qed.

Lemma grid_index (w h col row : nat) :
  (col < w)%nat -> (row < h)%nat -> (row * w + col < w * h)%nat.
Proof. intros Hc Hr. nia. Qed.

(** Two windows of one width: the flat index of ([col], [row]) is the same in
    the output and in both inputs. *)
Lemma result_at_grid (redData nirData : Band) (col row : nat) :
  width redData = width nirData ->
  (col < Nat.min (width redData) (width nirData))%nat ->
  (row < Nat.min (height redData) (height nirData))%nat ->
  at_grid (res_ndvi (computeNDVIArray redData nirData))
          (Nat.min (width redData) (width nirData)) col row
  = index (reflectance (at_grid (data redData) (width redData) col row))
          (reflectance (at_grid (data nirData) (width nirData) col row)).
Proof.
  intros Hw Hc Hr. unfold at_grid at 1.
  rewrite (sample_lookup _ _ _
             (result_lookup redData nirData _ (grid_index _ _ _ _ Hc Hr))).
  unfold value, at_grid. rewrite <- Hw, Nat.min_id. reflexivity.
Qed.



(** C5. Every index value the index computer stores that is not NoData is a
    finite number of the closed interval [[-1, 1]]. *)
Theorem C5_index_in_range (redData nirData : Band) (i : nat) (v : num) :
  res_ndvi (computeNDVIArray redData nirData) !! i = Some v ->
  isNaN v = false ->
  exists q, v = Fin q /\ -1 <= q /\ q <= 1.
Proof.
  intros Hv Hn.
  assert (Hi : (i < Nat.min (width redData) (width nirData)
                    * Nat.min (height redData) (height nirData))%nat).
  { apply lookup_lt_Some in Hv.
    destruct (result_shape redData nirData) as (_ & _ & L).
    rewrite L in Hv. exact Hv. }
  rewrite (result_lookup _ _ _ Hi) in Hv. injection Hv as <-.
  destruct (value_range (data redData) (data nirData) i) as [E | H].
  - rewrite E in Hn. discriminate.
  - exact H.
Qed.

Lemma C5_index_in_range_witness :
  exists q, value (data red_pair) (data nir_pair) 0 = Fin q /\ -1 <= q /\ q <= 1.
Proof.
  exact (C5_index_in_range red_pair nir_pair 0
           (value (data red_pair) (data nir_pair) 0)
           (result_lookup red_pair nir_pair 0 ltac:(cbn; lia)) eq_refl).
Defined.

(** C3, at a window of fill values: no sample is valid, the mean and the
    coverage are 0, and the minimum and maximum are [Infinity] and
    [-Infinity]. *)
Theorem C3_stats_of_fill_window :
  validCount (res_ndvi (computeNDVIArray fill_band fill_band)) = 0%Z /\
  stats (computeNDVIArray fill_band fill_band) =
    {| stat_min := PosInf; stat_mean := Fin 0;
       stat_max := NegInf; vegPct := Fin 0 |}.
Proof.
  assert (H : validCount (res_ndvi (computeNDVIArray fill_band fill_band)) = 0%Z)
    by reflexivity.
  split; [exact H|]. apply stats_no_valid, H.
Qed.

(** C8 as stated fails: with a red window three samples wide and a
    near-infrared window two samples wide, the output sample at column 0 of
    row 1 is not the index of the two inputs' samples at column 0 of row 1;
    and a zero-size window is answered with an empty result, not an error. *)
Lemma C8_trim_counterexample :
  width red_wide <> width nir_narrow /\
  ~ eqv (at_grid (res_ndvi (computeNDVIArray red_wide nir_narrow)) 2 0 1)
        (index (reflectance (at_grid (data red_wide) 3 0 1))
               (reflectance (at_grid (data nir_narrow) 2 0 1))) /\
  res_ndvi (computeNDVIArray empty_band empty_band) = [].
Proof.
  split; [discriminate|]. split; [|reflexivity].
  vm_compute. discriminate.
Qed.

(** C8, amended. For every pair of band windows the index computer returns a
    grid of [min(widthA, widthB)] by [min(heightA, heightB)] samples (an
    empty one for a zero-size window; there is no error outcome).  When the
    two windows have the same width, the output sample at ([col], [row]) of
    that grid is computed, without interpolation, from the red sample at
    ([col], [row]) and the near-infrared sample at ([col], [row]). *)
Theorem C8_trim_amended (redData nirData : Band) (col row : nat) :
  let out := computeNDVIArray redData nirData in
  res_width out = Nat.min (width redData) (width nirData) /\
  res_height out = Nat.min (height redData) (height nirData) /\
  length (res_ndvi out) = (res_width out * res_height out)%nat /\
  (width redData = width nirData ->
   (col < res_width out)%nat -> (row < res_height out)%nat ->
   at_grid (res_ndvi out) (res_width out) col row
   = index (reflectance (at_grid (data redData) (width redData) col row))
           (reflectance (at_grid (data nirData) (width nirData) col row))).
Proof.
  intros out.
  destruct (result_shape redData nirData) as (W & H & L).
  split; [exact W|]. split; [exact H|]. split; [exact L|].
  intros Hw Hc Hr. apply result_at_grid; assumption.
Qed.

Lemma C8_trim_amended_witness :
  at_grid (res_ndvi (computeNDVIArray red_tall nir_narrow)) 2 1 1
  = index (reflectance (Fin 11000)) (reflectance (Fin 20000)).
Proof.
  pose proof (C8_trim_amended red_tall nir_narrow 1 1) as H.
  cbv zeta in H. destruct H as (_ & _ & _ & H).
  exact (H eq_refl ltac:(cbn; lia) ltac:(cbn; lia)).
Defined.

End NdviFacts.

(** ** Colormaps *)

Module PaletteFacts.
Import Palette JsMath JsMathFacts.

Lemma floor_proper (x y : Q) : x == y -> floor x = floor y.
Proof. intros H. unfold floor. rewrite H. reflexivity. Qed.

Lemma mix_proper (a b : Z) (f g : Q) : f == g -> mix a b f = mix a b g.
Proof. intros H. unfold mix. apply round_proper. rewrite H. reflexivity. Qed.

Lemma mix_0 (a b : Z) (f : Q) : f == 0 -> mix a b f = a.
Proof.
  intros H. unfold mix. apply round_eq. rewrite H. ring.
Qed.

Lemma mix_1 (a b : Z) (f : Q) : f == 1 -> mix a b f = b.
Proof.
  intros H. unfold mix. apply round_eq. rewrite H. ring.
Qed.

(** Equal numbers give equal colours, whatever fraction represents them. *)
Lemma interp_proper (t t' : Q) (stops : list Color) :
  t == t' -> interp t stops = interp t' stops.
Proof.
  intros H. unfold interp.
  set (n := (Z.of_nat (length stops) - 1)%Z).
  assert (Ef : floor (t * inject_Z n) = floor (t' * inject_Z n)).
  { apply floor_proper. rewrite H. reflexivity. }
  rewrite <- Ef.
  set (i := Z.min (floor (t * inject_Z n)) (n - 1)).
  destruct (stopAt stops i) as [[[a0 a1] a2]|]; [|reflexivity].
  destruct (match stopAt stops (i + 1) with
            | Some c => Some c
            | None => stopAt stops n
            end) as [[[b0 b1] b2]|]; [|reflexivity].
  assert (E : t * inject_Z n - inject_Z i == t' * inject_Z n - inject_Z i).
  { rewrite H. reflexivity. }
  rewrite (mix_proper a0 b0 _ _ E), (mix_proper a1 b1 _ _ E),
    (mix_proper a2 b2 _ _ E).
  reflexivity.
Qed.

Lemma stopAt_in_range (stops : list Color) (i : Z) :
  (0 <= i < Z.of_nat (length stops))%Z -> is_Some (stopAt stops i).
Proof.
  intros H. unfold stopAt.
  destruct (Z.ltb_spec i 0) as [N|_]; [lia|].
  apply lookup_lt_is_Some. lia.
Qed.

(** The slot [Math.min(Math.floor(t * n), n - 1)] for [t] within [[0, 1]]. *)
Lemma slot_range (t : Q) (n : Z) :
  0 <= t -> t <= 1 -> (1 <= n)%Z ->
  (0 <= Z.min (floor (t * inject_Z n)) (n - 1) <= n - 1)%Z.
Proof.
  intros H0 H1 Hn.
  assert (Q0 : 0 <= inject_Z n).
  { change 0 with (inject_Z 0). rewrite <- Zle_Qle. lia. }
  assert (F : (0 <= floor (t * inject_Z n))%Z).
  { apply floor_nonneg. nra. }
  lia.
Qed.

(** Within [[0, 1]] both stops the interpolation reads exist. *)
Lemma interp_defined (t : Q) (stops : list Color) :
  0 <= t -> t <= 1 -> (2 <= length stops)%nat ->
  let n := (Z.of_nat (length stops) - 1)%Z in
  let i := Z.min (floor (t * inject_Z n)) (n - 1) in
  is_Some (stopAt stops i) /\ is_Some (stopAt stops (i + 1)) /\
  is_Some (interp t stops).
Proof.
  intros H0 H1 Hl n i.
  pose proof (slot_range t n H0 H1 ltac:(subst n; lia)) as R. fold i in R.
  assert (A : is_Some (stopAt stops i)) by (apply stopAt_in_range; lia).
  assert (B : is_Some (stopAt stops (i + 1))) by (apply stopAt_in_range; lia).
  split; [exact A|]. split; [exact B|].
  unfold interp. fold n. fold i.
  destruct A as [[[a0 a1] a2] ->], B as [[[b0 b1] b2] ->]. eexists. reflexivity.
Qed.

(** The ends of the range. *)
Lemma interp_0 (t : Q) (stops : list Color) :
  t == 0 -> (2 <= length stops)%nat -> interp t stops = head stops.
Proof.
  intros Ht Hl. rewrite (interp_proper t 0 stops Ht).
  destruct stops as [|a [|b rest]]; cbn in Hl; try lia.
  unfold interp. cbv zeta.
  set (n := (Z.of_nat (length (a :: b :: rest)) - 1)%Z).
  assert (Hn : (1 <= n)%Z) by (subst n; cbn [length]; lia).
  assert (Ei : Z.min (floor (0 * inject_Z n)) (n - 1) = 0%Z).
  { rewrite (floor_proper _ 0) by ring. change (floor 0) with 0%Z. lia. }
  rewrite Ei.
  change (stopAt (a :: b :: rest) 0) with (Some a).
  change (stopAt (a :: b :: rest) (0 + 1)) with (Some b).
  destruct a as [[a0 a1] a2], b as [[b0 b1] b2].
  assert (E : 0 * inject_Z n - inject_Z 0 == 0)
    by (change (inject_Z 0) with 0; ring).
  rewrite (mix_0 a0 b0 _ E), (mix_0 a1 b1 _ E), (mix_0 a2 b2 _ E).
  reflexivity.
Qed.

Lemma interp_1 (t : Q) (stops : list Color) :
  t == 1 -> (2 <= length stops)%nat -> interp t stops = last stops.
Proof.
  intros Ht Hl. rewrite (interp_proper t 1 stops Ht).
  unfold interp. cbv zeta.
  set (n := (Z.of_nat (length stops) - 1)%Z).
  assert (Hn : (1 <= n)%Z) by (subst n; lia).
  assert (Ei : Z.min (floor (1 * inject_Z n)) (n - 1) = (n - 1)%Z).
  { rewrite (floor_proper _ (inject_Z n)) by ring.
    unfold floor. rewrite Qfloor_Z. lia. }
  rewrite Ei. replace (n - 1 + 1)%Z with n by lia.
  destruct (stopAt_in_range stops (n - 1) ltac:(lia)) as [[[a0 a1] a2] Ha].
  destruct (stopAt_in_range stops n ltac:(lia)) as [[[b0 b1] b2] Hb].
  rewrite Ha, Hb.
  assert (E : 1 * inject_Z n - inject_Z (n - 1) == 1).
  { unfold Z.sub. rewrite inject_Z_plus, inject_Z_opp.
    change (inject_Z 1) with 1. ring. }
  rewrite (mix_1 a0 b0 _ E), (mix_1 a1 b1 _ E), (mix_1 a2 b2 _ E).
  rewrite last_lookup. transitivity (stopAt stops n); [symmetry; exact Hb|].
  unfold stopAt.
  destruct (Z.ltb_spec n 0) as [N|_]; [lia|].
  f_equal. subst n. lia.
Qed.

(** *** The palettes *)

Lemma stopsOf_cases (name : string) :
  stopsOf name = greens \/ stopsOf name = viridis \/ stopsOf name = spectral \/
  stopsOf name = ylgn \/ stopsOf name = rdylgn.
Proof.
  unfold stopsOf.
  repeat match goal with
         | |- context [ if ?b then _ else _ ] => destruct b
         end; tauto.
Qed.

Lemma stopsOf_length (name : string) : (2 <= length (stopsOf name))%nat.
Proof.
  destruct (stopsOf_cases name) as [E | [E | [E | [E | E]]]];
    rewrite E; cbn; lia.
Qed.

Lemma applyColormap_proper (t t' : Q) (name : string) :
  t == t' -> applyColormap t name = applyColormap t' name.
Proof. intros H. apply interp_proper, H. Qed.

(** *** The raster renderer *)

Lemma normalize_fin (q : Q) :
  normalize (Js.Fin q) = Js.Fin (Qmax 0 (Qmin 1 ((q + 1) / 2))).
Proof. reflexivity. Qed.

Lemma renderPixel_fin (q : Q) (name : string) :
  renderPixel (Js.Fin q) name
  = opaque (applyColormap (Qmax 0 (Qmin 1 ((q + 1) / 2))) name).
Proof. unfold renderPixel. rewrite normalize_fin. reflexivity. Qed.

Lemma renderPixel_below (q : Q) (name : string) :
  (q + 1) / 2 < 0 ->
  renderPixel (Js.Fin q) name = opaque (firstStop (stopsOf name)).
Proof.
  intros H. rewrite renderPixel_fin. f_equal.
  apply interp_0; [|apply stopsOf_length].
  rewrite (Q.min_r 1 ((q + 1) / 2)) by lra. apply Q.max_l. lra.
Qed.

Lemma renderPixel_above (q : Q) (name : string) :
  1 < (q + 1) / 2 ->
  renderPixel (Js.Fin q) name = opaque (lastStop (stopsOf name)).
Proof.
  intros H. rewrite renderPixel_fin. f_equal.
  apply interp_1; [|apply stopsOf_length].
  rewrite (Q.min_l 1 ((q + 1) / 2)) by lra. apply Q.max_r. lra.
Qed.

(** The clamp of the renderer always lands in [[0, 1]], so no pixel makes the
    interpolation fail. *)
Lemma renderPixel_defined (v : Js.num) (name : string) :
  is_Some (renderPixel v name).
Proof.
  assert (F : forall t, 0 <= t -> t <= 1 ->
                        is_Some (opaque (applyColormap t name))).
  { intros t H0 H1.
    destruct (interp_defined t (stopsOf name) H0 H1 (stopsOf_length name))
      as (_ & _ & [c E]).
    unfold applyColormap. rewrite E. eexists. reflexivity. }
  destruct v as [| |q|].
  - eexists. reflexivity.
  - apply (F 0); discriminate.
  - rewrite renderPixel_fin. apply F.
    + apply Q.le_max_l.
    + apply Q.max_lub; [discriminate|apply Q.le_min_l].
  - apply (F (Qmax 0 1)); discriminate.
Qed.

Lemma createImageData_defined (width height : nat) :
  (0 < width)%nat -> (0 < height)%nat ->
  createImageData width height = Some (4 * (width * height))%nat.
Proof.
  intros Hw Hh. unfold createImageData.
  destruct (Nat.eqb_spec width 0); [lia|].
  destruct (Nat.eqb_spec height 0); [lia|]. reflexivity.
Qed.

Lemma renderNDVIToCanvas_defined (ndvi : list Js.num) (width height : nat)
  (name : string) :
  (0 < width)%nat -> (0 < height)%nat ->
  is_Some (renderNDVIToCanvas ndvi width height name).
Proof.
  intros Hw Hh. unfold renderNDVIToCanvas.
  rewrite (createImageData_defined width height Hw Hh).
  apply mapM_is_Some, Forall_forall.
  intros i _. apply renderPixel_defined.
Qed.

(** C9 as stated fails on the interpolation itself: below 0 it reads the stop
    at index -1, which does not exist, and above 1 it extrapolates past the
    last stop. *)
Lemma C9_clamp_counterexample :
  applyColormap (- (1 # 2)) "greens" = None /\
  stopAt greens (Z.min (floor (- (1 # 2) * 1)) (1 - 1)) = None /\
  applyColormap 2 "greens" = Some (-247, -34, -157)%Z /\
  lastStop (stopsOf "greens") = Some (0, 109, 44)%Z.
Proof. repeat split; reflexivity. Qed.

(** C9, amended. For every palette and every [t] of [[0, 1]] the
    interpolation is defined and reads only stops that exist.  The
    interpolation does not clamp; the raster renderer clamps the normalised
    value [(v + 1) / 2] into [[0, 1]] before the lookup, so a sample whose
    normalised value is below 0 is drawn in the first stop's colour and one
    whose normalised value is above 1 in the last stop's colour. *)
Theorem C9_clamp_amended (name : string) :
  (forall t, 0 <= t -> t <= 1 ->
     let n := (Z.of_nat (length (stopsOf name)) - 1)%Z in
     let i := Z.min (floor (t * inject_Z n)) (n - 1) in
     is_Some (stopAt (stopsOf name) i) /\
     is_Some (stopAt (stopsOf name) (i + 1)) /\
     is_Some (applyColormap t name)) /\
  (forall v, (v + 1) / 2 < 0 ->
     renderPixel (Js.Fin v) name = opaque (firstStop (stopsOf name))) /\
  (forall v, 1 < (v + 1) / 2 ->
     renderPixel (Js.Fin v) name = opaque (lastStop (stopsOf name))).
Proof.
  split; [|split].
  - intros t H0 H1. apply interp_defined; [exact H0|exact H1|apply stopsOf_length].
  - intros v H. apply renderPixel_below, H.
  - intros v H. apply renderPixel_above, H.
Qed.

Lemma C9_clamp_amended_witness :
  is_Some (applyColormap (1 # 3) "viridis") /\
  renderPixel (Js.Fin (- (3))) "viridis" = Some ((68, 1, 84)%Z, 255%Z) /\
  renderPixel (Js.Fin 5) "viridis" = Some ((253, 231, 37)%Z, 255%Z).
Proof.
  destruct (C9_clamp_amended "viridis") as (D & L & U).
  split; [|split].
  - exact (proj2 (proj2 (D (1 # 3) ltac:(discriminate) ltac:(discriminate)))).
  - exact (L (- (3)) ltac:(reflexivity)).
  - exact (U 5 ltac:(reflexivity)).
Defined.

(** C10. For every palette name (the five the switch lists, and any other
    name, which selects the default palette) the colormap at [t = 0] is
    exactly the palette's first stop and at [t = 1] exactly its last stop;
    the table gives the end colours of the five supported palettes.  The
    colormap is a function of the number [t] and the name: equal arguments
    give equal colours. *)
Theorem C10_endpoints (name : string) :
  applyColormap 0 name = firstStop (stopsOf name) /\
  applyColormap 1 name = lastStop (stopsOf name) /\
  is_Some (firstStop (stopsOf name)) /\ is_Some (lastStop (stopsOf name)) /\
  map (fun nm => (applyColormap 0 nm, applyColormap 1 nm)) supported =
    [ (Some (247, 252, 245), Some (0, 109, 44));
      (Some (68, 1, 84), Some (253, 231, 37));
      (Some (158, 1, 66), Some (94, 79, 162));
      (Some (255, 255, 229), Some (0, 104, 55));
      (Some (165, 0, 38), Some (0, 104, 55)) ]%Z /\
  (forall t t', t == t' -> applyColormap t name = applyColormap t' name).
Proof.
  split; [apply interp_0; [reflexivity|apply stopsOf_length]|].
  split; [apply interp_1; [reflexivity|apply stopsOf_length]|].
  split.
  { destruct (stopsOf_cases name) as [E | [E | [E | [E | E]]]];
      rewrite E; eexists; reflexivity. }
  split.
  { destruct (stopsOf_cases name) as [E | [E | [E | [E | E]]]];
      rewrite E; eexists; reflexivity. }
  split; [reflexivity|].
  intros t t' H. apply applyColormap_proper, H.
Qed.

Lemma C10_endpoints_witness :
  applyColormap (1 # 2) "ylgn" = applyColormap (2 # 4) "ylgn".
Proof.
  exact (proj2 (proj2 (proj2 (proj2 (proj2 (C10_endpoints "ylgn")))))
           (1 # 2) (2 # 4) ltac:(reflexivity)).
Defined.

End PaletteFacts.

(** ** URL signing *)

Module StacFacts.
Import Stac.

Lemma sleeps_app (t u : list Event) : sleeps (t ++ u) = sleeps t ++ sleeps u.
Proof. unfold sleeps. apply omap_app. Qed.

Lemma fetchCount_app (t u : list Event) :
  fetchCount (t ++ u) = (fetchCount t + fetchCount u)%nat.
Proof. unfold fetchCount. rewrite List.filter_app. apply length_app. Qed.

(** Whatever the fetches answer, the loop makes at most [remaining] fetches
    and its sleeps are an initial run of the doubling delays. *)
Lemma attempts_bounded (fetch : nat -> FetchResult) (remaining : nat) :
  forall (attempt : nat) (delay : Z) (trace : list Event),
  exists j k : nat,
    (j <= remaining)%nat /\ (k <= remaining)%nat /\
    fetchCount (attempts fetch remaining attempt delay trace).2
      = (fetchCount trace + j)%nat /\
    sleeps (attempts fetch remaining attempt delay trace).2
      = sleeps trace ++ backoff delay k.
Proof.
  induction remaining as [|r IH]; intros attempt delay trace.
  - exists 0%nat, 0%nat. cbn. rewrite app_nil_r, Nat.add_0_r. auto.
  - assert (Stop : forall o : Outcome,
               exists j k : nat,
                 (j <= S r)%nat /\ (k <= S r)%nat /\
                 fetchCount (o, trace ++ [Fetch attempt]).2
                   = (fetchCount trace + j)%nat /\
                 sleeps (o, trace ++ [Fetch attempt]).2
                   = sleeps trace ++ backoff delay k).
    { intros o. exists 1%nat, 0%nat. cbn [snd].
      rewrite fetchCount_app, sleeps_app. cbn. rewrite !app_nil_r.
      repeat split; lia. }
    assert (Again :
               exists j k : nat,
                 (j <= S r)%nat /\ (k <= S r)%nat /\
                 fetchCount (attempts fetch r (S attempt) (delay * 2)
                               ((trace ++ [Fetch attempt]) ++ [Sleep delay])).2
                   = (fetchCount trace + j)%nat /\
                 sleeps (attempts fetch r (S attempt) (delay * 2)
                           ((trace ++ [Fetch attempt]) ++ [Sleep delay])).2
                   = sleeps trace ++ backoff delay k).
    { destruct (IH (S attempt) (delay * 2)%Z
                  ((trace ++ [Fetch attempt]) ++ [Sleep delay]))
        as (j & k & Hj & Hk & Ef & Es).
      exists (S j), (S k). rewrite Ef, Es.
      rewrite !fetchCount_app, !sleeps_app. cbn. rewrite app_nil_r.
      rewrite <- app_assoc. cbn. repeat split; lia. }
    cbn [attempts]. unfold catch.
    destruct (fetch attempt) as [|status [href|]];
      repeat match goal with
             | |- context [ if ?b then _ else _ ] => destruct b
             end; solve [apply Stop | apply Again].
Qed.

(** A run of rate-limit answers: four fetches, sleeps of 800, 1600, 3200 and
    6400 ms, then the terminal error. *)
Lemma signUrl_rate_limited (fetch : nat -> FetchResult) :
  (forall k, (1 <= k <= 4)%nat -> exists body, fetch k = Response 429 body) ->
  signUrl fetch =
    (Thrown RateLimited,
     [Fetch 1; Sleep 800; Fetch 2; Sleep 1600; Fetch 3; Sleep 3200;
      Fetch 4; Sleep 6400]%Z).
Proof.
  intros H.
  destruct (H 1%nat ltac:(lia)) as [b1 E1], (H 2%nat ltac:(lia)) as [b2 E2],
    (H 3%nat ltac:(lia)) as [b3 E3], (H 4%nat ltac:(lia)) as [b4 E4].
  unfold signUrl, MAX_RETRIES. cbn [attempts].
  rewrite E1, E2, E3, E4. reflexivity.
Qed.

Lemma signUrl_bounded (fetch : nat -> FetchResult) :
  (fetchCount (signUrl fetch).2 <= 4)%nat /\
  exists k, (k <= 4)%nat /\ sleeps (signUrl fetch).2 = backoff 800 k.
Proof.
  destruct (attempts_bounded fetch MAX_RETRIES 1 800%Z [])
    as (j & k & Hj & Hk & Ef & Es).
  unfold signUrl. rewrite Ef, Es. split; [exact Hj|].
  exists k. split; [exact Hk|reflexivity].
Qed.

(** C7, at a non-rate-limit HTTP error: the error thrown inside the [try]
    block is caught by the [catch] block of the same loop, which sleeps and
    fetches again; only the fourth such error is surfaced. *)
Theorem C7_http_error_is_retried :
  signUrl fetch_500_then_ok =
    (Returned "https://signed.example/red.tif",
     [Fetch 1; Sleep 800; Fetch 2]%Z) /\
  signUrl fetch_always_500 =
    (Thrown (HttpError 500),
     [Fetch 1; Sleep 800; Fetch 2; Sleep 1600; Fetch 3; Sleep 3200;
      Fetch 4]%Z).
Proof. split; reflexivity. Qed.

End StacFacts.

(** ** More on the pixel window *)

Module CogMore.
Import Cog JsMath JsMathFacts Double DoubleFacts CogFacts.

Lemma div_to_mul_lt (a c z : Q) : 0 < c -> a / c < z -> a < z * c.
Proof.
  intros Hc H. assert (E : a == (a / c) * c) by (field; lra).
  rewrite E. apply Qmult_lt_compat_r; assumption.
Qed.

Lemma mul_to_div_lt (a c z : Q) : 0 < c -> z < a / c -> z * c < a.
Proof.
  intros Hc H. assert (E : a == (a / c) * c) by (field; lra).
  rewrite E. apply Qmult_lt_compat_r; assumption.
Qed.

(** X1. The window never under-fetches.  For a geotransform with
    [xRes > 0] and [yRes < 0], resolutions between [2^-900] and [2^900] in
    size and a raster of at most [2^40] pixels a side: a raster pixel that
    holds a point of the AOI at least a hundredth of a pixel away from the
    pixel's edges (its centre, for one) belongs to the window that is
    returned, and the mapper does not answer with the sentinel. *)
Theorem X1_window_covers_aoi (gt : GeoTransform) (utm : Extent)
  (fullW fullH : Z) (x y : Q) (c r : Z) :
  0 < xRes gt -> yRes gt < 0 -> moderate (xRes gt) -> moderate (yRes gt) ->
  (fullW <= sideCap)%Z -> (fullH <= sideCap)%Z ->
  xmin utm <= x <= xmax utm -> ymin utm <= y <= ymax utm ->
  (0 <= c < fullW)%Z -> (0 <= r < fullH)%Z ->
  originX gt + (inject_Z c + (1 # 100)) * xRes gt <= x
    <= originX gt + (inject_Z c + (99 # 100)) * xRes gt ->
  originY gt + (inject_Z r + (99 # 100)) * yRes gt <= y
    <= originY gt + (inject_Z r + (1 # 100)) * yRes gt ->
  exists w, pixelWindow gt utm fullW fullH = Some w /\
            (col0 w <= c < col1 w)%Z /\ (row0 w <= r < row1 w)%Z.
Proof.
  intros Hx Hy [Mx _] [My _] HW HH [X0 X1] [Y0 Y1] Hc Hr [Px0 Px1] [Py0 Py1].
  pose proof (axis_covers (xmin utm) (xmax utm) (originX gt) (xRes gt)
                fullW c Mx HW Hc
                ltac:(apply quot_le; [exact Hx|lra])
                ltac:(apply quot_ge; [exact Hx|lra])) as C.
  pose proof (axis_covers (ymax utm) (ymin utm) (originY gt) (yRes gt)
                fullH r My HH Hr
                ltac:(apply quot_le_neg; [exact Hy|lra])
                ltac:(apply quot_ge_neg; [exact Hy|lra])) as R.
  unfold pixelWindow, clampWindow, rawWindow; cbn [col0 col1 row0 row1].
  set (c0 := floor (pixelCoord (xmin utm) (originX gt) (xRes gt))) in *.
  set (r0 := floor (pixelCoord (ymax utm) (originY gt) (yRes gt))) in *.
  set (c1 := ceil (pixelCoord (xmax utm) (originX gt) (xRes gt))) in *.
  set (r1 := ceil (pixelCoord (ymin utm) (originY gt) (yRes gt))) in *.
  destruct (Z.leb_spec (Z.min fullW c1) (Z.max 0 c0)); [lia|].
  destruct (Z.leb_spec (Z.min fullH r1) (Z.max 0 r0)); [lia|].
  cbn [orb]. eexists. split; [reflexivity|]. cbn [col0 col1 row0 row1]. lia.
Qed.

Lemma X1_window_covers_aoi_witness :
  exists w, pixelWindow gt_example aoi_example 1000 1000 = Some w /\
            (col0 w <= 150 < col1 w)%Z /\ (row0 w <= 120 < row1 w)%Z.
Proof.
  apply (X1_window_covers_aoi gt_example aoi_example 1000 1000
           504515 3996385 150 120).
  - reflexivity.
  - reflexivity.
  - split; apply Qle_bool_iff; vm_compute; reflexivity.
  - split; apply Qle_bool_iff; vm_compute; reflexivity.
  - vm_compute; discriminate.
  - vm_compute; discriminate.
  - split; vm_compute; discriminate.
  - split; vm_compute; discriminate.
  - lia.
  - lia.
  - split; vm_compute; discriminate.
  - split; vm_compute; discriminate.
Defined.

(** X2. The window never over-fetches by a pixel.  For a geotransform with
    [xRes > 0] and [yRes < 0], resolutions between [2^-900] and [2^900] in
    size and a raster of at most [2^40] pixels a side: every column of a
    returned window lies within a hundredth of a pixel of the AOI's range of
    [x], and every row within a hundredth of a pixel of its range of [y]. *)
Theorem X2_window_is_tight (gt : GeoTransform) (utm : Extent)
  (fullW fullH : Z) (w : PixelWindow) (c r : Z) :
  0 < xRes gt -> yRes gt < 0 -> moderate (xRes gt) -> moderate (yRes gt) ->
  (fullW <= sideCap)%Z -> (fullH <= sideCap)%Z ->
  pixelWindow gt utm fullW fullH = Some w ->
  (col0 w <= c < col1 w)%Z -> (row0 w <= r < row1 w)%Z ->
  (originX gt + (inject_Z c - (1 # 100)) * xRes gt < xmax utm /\
   xmin utm < originX gt + (inject_Z c + 1 + (1 # 100)) * xRes gt) /\
  (ymin utm < originY gt + (inject_Z r - (1 # 100)) * yRes gt /\
   originY gt + (inject_Z r + 1 + (1 # 100)) * yRes gt < ymax utm).
Proof.
  intros Hx Hy [Mx _] [My _] HW HH E Hc Hr. unfold pixelWindow in E.
  destruct (_ || _)%bool; [discriminate|]. injection E as <-.
  unfold clampWindow, rawWindow in Hc, Hr; cbn [col0 col1 row0 row1] in Hc, Hr.
  assert (Hny : 0 < - yRes gt) by lra.
  destruct (axis_tight _ _ _ _ _ _ Mx HW Hc) as [Xh Xl].
  destruct (axis_tight _ _ _ _ _ _ My HH Hr) as [Yh Yl].
  split; split.
  - apply (mul_to_div_lt _ _ _ Hx) in Xh. lra.
  - apply (div_to_mul_lt _ _ _ Hx) in Xl. lra.
  - rewrite (Qdiv_neg_flip _ _ Hy) in Yh.
    apply (mul_to_div_lt _ _ _ Hny) in Yh. lra.
  - rewrite (Qdiv_neg_flip _ _ Hy) in Yl.
    apply (div_to_mul_lt _ _ _ Hny) in Yl. lra.
Qed.

Lemma X2_window_is_tight_witness :
  (originX gt_example + (inject_Z 199 - (1 # 100)) * xRes gt_example
     < xmax aoi_example /\
   xmin aoi_example
     < originX gt_example + (inject_Z 199 + 1 + (1 # 100)) * xRes gt_example) /\
  (ymin aoi_example
     < originY gt_example + (inject_Z 100 - (1 # 100)) * yRes gt_example /\
   originY gt_example + (inject_Z 100 + 1 + (1 # 100)) * yRes gt_example
     < ymax aoi_example).
Proof.
  apply (X2_window_is_tight gt_example aoi_example 1000 1000
           {| col0 := 100; row0 := 100; col1 := 200; row1 := 200 |} 199 100).
  - reflexivity.
  - reflexivity.
  - split; apply Qle_bool_iff; vm_compute; reflexivity.
  - split; apply Qle_bool_iff; vm_compute; reflexivity.
  - vm_compute; discriminate.
  - vm_compute; discriminate.
  - reflexivity.
  - cbn; lia.
  - cbn; lia.
Defined.

Lemma outputSize_le_cap (w : PixelWindow) :
  (col0 w < col1 w)%Z -> (row0 w < row1 w)%Z ->
  (fst (outputSize w) <= 1024)%Z /\ (snd (outputSize w) <= 1024)%Z.
Proof.
  intros Hc Hr.
  destruct (outputSize_dims w Hc Hr) as (W0 & W1 & W2 & H0 & H1 & H2).
  destruct (out_dim _ _ W0 W1 W2 ltac:(lia)) as (A & _).
  destruct (out_dim _ _ H0 H1 H2 ltac:(lia)) as (B & _).
  unfold outputSize; cbn [fst snd]. lia.
Qed.

(** The larger dimension of a window beyond the cap comes out at the cap. *)
Lemma outputSize_capped (w : PixelWindow) :
  (col0 w < col1 w)%Z -> (row0 w < row1 w)%Z ->
  (1024 < Z.max (col1 w - col0 w) (row1 w - row0 w))%Z ->
  Z.max (fst (outputSize w)) (snd (outputSize w)) = 1024%Z.
Proof.
  intros Hc Hr Hm.
  destruct (outputSize_le_cap w Hc Hr) as (Bw & Bh).
  set (winW := (col1 w - col0 w)%Z) in *. set (winH := (row1 w - row0 w)%Z) in *.
  assert (S : outputScale winW winH == 1024 / inject_Z (Z.max winW winH)).
  { unfold outputScale, maxDim. apply Q.min_r.
    apply Qle_shift_div_r.
    - change 0 with (inject_Z 0). rewrite <- Zlt_Qlt. lia.
    - change 1024 with (inject_Z 1024). rewrite Qmult_1_l, <- Zle_Qle. lia. }
  assert (P : 0 < inject_Z (Z.max winW winH)).
  { change 0 with (inject_Z 0). rewrite <- Zlt_Qlt. lia. }
  destruct (Z.max_spec winW winH) as [[L E]|[L E]].
  - assert (R : round (inject_Z winH * outputScale winW winH) = 1024%Z).
    { apply round_eq. rewrite S, E. change (inject_Z 1024) with 1024.
      field. rewrite <- E. lra. }
    unfold outputSize in *. fold winW winH in Bw, Bh |- *.
    cbn [fst snd] in *. rewrite R in *. lia.
  - assert (R : round (inject_Z winW * outputScale winW winH) = 1024%Z).
    { apply round_eq. rewrite S, E. change (inject_Z 1024) with 1024.
      field. rewrite <- E. lra. }
    unfold outputSize in *. fold winW winH in Bw, Bh |- *.
    cbn [fst snd] in *. rewrite R in *. lia.
Qed.

(** X3. A window of at most 1024 pixels in both dimensions is read at its
    native size, sample for sample; a window that is larger in some dimension
    is reduced so that its larger output dimension is exactly 1024. *)
Theorem X3_output_size_cases (w : PixelWindow) :
  (col0 w < col1 w)%Z -> (row0 w < row1 w)%Z ->
  ((Z.max (col1 w - col0 w) (row1 w - row0 w) <= 1024)%Z ->
   outputSize w = ((col1 w - col0 w)%Z, (row1 w - row0 w)%Z)) /\
  ((1024 < Z.max (col1 w - col0 w) (row1 w - row0 w))%Z ->
   Z.max (fst (outputSize w)) (snd (outputSize w)) = 1024%Z).
Proof.
  intros Hc Hr. split.
  - apply outputSize_native; assumption.
  - apply outputSize_capped; assumption.
Qed.

Lemma X3_output_size_cases_witness :
  outputSize {| col0 := 5; row0 := 7; col1 := 305; row1 := 1031 |}
    = (300%Z, 1024%Z) /\
  Z.max (fst (outputSize {| col0 := 0; row0 := 0; col1 := 3000; row1 := 7000 |}))
        (snd (outputSize {| col0 := 0; row0 := 0; col1 := 3000; row1 := 7000 |}))
    = 1024%Z.
Proof.
  split.
  - exact (proj1 (X3_output_size_cases
                    {| col0 := 5; row0 := 7; col1 := 305; row1 := 1031 |}
                    ltac:(reflexivity) ltac:(reflexivity))
                 ltac:(discriminate)).
  - exact (proj2 (X3_output_size_cases
                    {| col0 := 0; row0 := 0; col1 := 3000; row1 := 7000 |}
                    ltac:(reflexivity) ltac:(reflexivity))
                 ltac:(reflexivity)).
Defined.

(** X28. Whatever the projection, the AOI and the raster, a read that
    [readCOGWindow] requests (for resolutions that are not zero) is for a
    non-empty window inside the raster, at an output size between 1 and 1024
    in each dimension that never exceeds the window's own size: the band
    that comes back has at most 1024 x 1024 samples and is never upsampled. *)
Theorem X28_read_request_valid (proj4 : Z -> Q * Q -> Q * Q)
  (gt : GeoTransform) (epsg fullW fullH : Z) (bbox : BBox) (rq : ReadRequest) :
  ~ xRes gt == 0 -> ~ yRes gt == 0 ->
  readCOGWindow proj4 gt epsg fullW fullH bbox = Some rq ->
  validWindow fullW fullH (window rq) /\
  (1 <= outW rq <= 1024)%Z /\ (1 <= outH rq <= 1024)%Z /\
  (outW rq <= col1 (window rq) - col0 (window rq))%Z /\
  (outH rq <= row1 (window rq) - row0 (window rq))%Z /\
  (outW rq * outH rq <= 1024 * 1024)%Z.
Proof.
  intros _ _ H. unfold readCOGWindow in H.
  destruct (pixelWindow gt (reproject proj4 epsg bbox) fullW fullH)
    as [w|] eqn:E; [|discriminate].
  pose proof (pixelWindow_valid _ _ _ _ _ E) as V.
  destruct (outputSize w) as [ow oh] eqn:Eo. injection H as <-.
  cbn [window outW outH].
  destruct V as (Vc & VcW & Vr & VrH).
  destruct (outputSize_dims w ltac:(lia) ltac:(lia))
    as (W0 & W1 & W2 & H0 & H1 & H2).
  destruct (out_dim _ _ W0 W1 W2 ltac:(lia)) as (A1 & A2 & _).
  destruct (out_dim _ _ H0 H1 H2 ltac:(lia)) as (B1 & B2 & _).
  unfold outputSize in Eo. injection Eo as <- <-.
  repeat split; try lia. nia.
Qed.

Lemma X28_read_request_valid_witness :
  validWindow 1000 1000 {| col0 := 100; row0 := 100; col1 := 200; row1 := 200 |}.
Proof.
  exact (proj1 (X28_read_request_valid shear gt_example 4326 1000 1000
                  {| west := 503000; south := 3994000;
                     east := 506000; north := 3997000 |}
                  {| window := {| col0 := 100; row0 := 100;
                                  col1 := 200; row1 := 200 |};
                     outW := 100; outH := 100 |}
                  ltac:(discriminate) ltac:(discriminate) eq_refl)).
Defined.

End CogMore.

(** ** The CRS code of an image *)

Module EpsgFacts.
Import Epsg.

Lemma entryCode_Some (keyId : Z) (val : option Z) (v : Z) :
  entryCode keyId val = Some v <->
  val = Some v /\ (0 < v)%Z /\ (keyId = 3072%Z \/ keyId = 2048%Z).
Proof.
  unfold entryCode. destruct val as [x|].
  - destruct (Z.eqb_spec keyId 3072) as [K1|K1],
      (Z.eqb_spec keyId 2048) as [K2|K2], (Z.ltb_spec 0 x) as [P|P];
      cbn; split; intros G;
      try discriminate;
      try (injection G as <-; auto);
      try (destruct G as (E & Q & [K|K]); injection E as ->; try lia;
           try contradiction; reflexivity).
  - split; [discriminate|]. intros (E & _). discriminate.
Qed.

Lemma scan_unfold (fuel : nat) (geoKeys : list Z) (i : nat) :
  scan (S fuel) geoKeys i =
    match geoKeys !! i with
    | None => None
    | Some _ =>
        match codeAt geoKeys i with
        | Some v => Some v
        | None => scan fuel geoKeys (i + 4)
        end
    end.
Proof. unfold codeAt. cbn. destruct (geoKeys !! i); reflexivity. Qed.

Lemma scan_past_end (fuel : nat) (geoKeys : list Z) (i : nat) :
  (length geoKeys <= i)%nat -> scan fuel geoKeys i = None.
Proof.
  intros H. destruct fuel; [reflexivity|].
  rewrite scan_unfold, (lookup_ge_None_2 _ _ H). reflexivity.
Qed.

(** Entries that name no code are skipped, one iteration each. *)
Lemma scan_skip (n : nat) :
  forall (fuel : nat) (geoKeys : list Z) (i : nat),
  (forall j, (j < n)%nat -> codeAt geoKeys (i + 4 * j) = None) ->
  (i + 4 * n <= length geoKeys)%nat ->
  scan (n + fuel) geoKeys i = scan fuel geoKeys (i + 4 * n).
Proof.
  induction n as [|n IH]; intros fuel geoKeys i Hno Hlen.
  - cbn. rewrite Nat.add_0_r. reflexivity.
  - change (S n + fuel)%nat with (S (n + fuel)). rewrite scan_unfold.
    destruct (geoKeys !! i) eqn:E.
    + pose proof (Hno 0%nat ltac:(lia)) as H0.
      rewrite Nat.mul_0_r, Nat.add_0_r in H0. rewrite H0.
      rewrite IH.
      * f_equal. lia.
      * intros j Hj. replace (i + 4 + 4 * j)%nat with (i + 4 * S j)%nat by lia.
        apply Hno. lia.
      * lia.
    + apply lookup_ge_None_1 in E. lia.
Qed.

Lemma scan_sound (fuel : nat) :
  forall (geoKeys : list Z) (i : nat) (v : Z),
  scan fuel geoKeys i = Some v ->
  exists j, codeAt geoKeys (i + 4 * j) = Some v /\
            forall j', (j' < j)%nat -> codeAt geoKeys (i + 4 * j') = None.
Proof.
  induction fuel as [|fuel IH]; intros geoKeys i v H; [discriminate|].
  rewrite scan_unfold in H.
  destruct (geoKeys !! i); [|discriminate].
  destruct (codeAt geoKeys i) as [c|] eqn:E.
  - injection H as ->. exists 0%nat. rewrite Nat.mul_0_r, Nat.add_0_r.
    split; [exact E|]. intros j' Hj. lia.
  - destruct (IH _ _ _ H) as (j & Hj & Hbefore). exists (S j).
    replace (i + 4 * S j)%nat with (i + 4 + 4 * j)%nat by lia.
    split; [exact Hj|]. intros [|j'] Hlt.
    + rewrite Nat.mul_0_r, Nat.add_0_r. exact E.
    + replace (i + 4 * S j')%nat with (i + 4 + 4 * j')%nat by lia.
      apply Hbefore. lia.
Qed.

Lemma scan_none (fuel : nat) :
  forall (geoKeys : list Z) (i : nat),
  (forall j, codeAt geoKeys (i + 4 * j) = None) -> scan fuel geoKeys i = None.
Proof.
  intros geoKeys i H.
  destruct (scan fuel geoKeys i) as [v|] eqn:E; [|reflexivity].
  destruct (scan_sound _ _ _ _ E) as (j & Hj & _). rewrite H in Hj. discriminate.
Qed.

Lemma codeAt_length (geoKeys : list Z) (i : nat) (v : Z) :
  codeAt geoKeys i = Some v -> (i + 4 <= length geoKeys)%nat.
Proof.
  unfold codeAt. destruct (geoKeys !! i); [|discriminate].
  intros H. apply entryCode_Some in H as (E & _).
  apply lookup_lt_Some in E. lia.
Qed.

(** The loop finds the first entry that names a code: the iterations allowed
    are enough to reach it. *)
Lemma scan_first (geoKeys : list Z) (k : nat) (v : Z) :
  codeAt geoKeys (4 + 4 * k) = Some v ->
  (forall j, (j < k)%nat -> codeAt geoKeys (4 + 4 * j) = None) ->
  scan (length geoKeys) geoKeys 4 = Some v.
Proof.
  intros Hk Hno. pose proof (codeAt_length _ _ _ Hk) as L.
  replace (length geoKeys) with (k + S (length geoKeys - k - 1))%nat by lia.
  rewrite (scan_skip k _ _ _ Hno) by lia.
  rewrite scan_unfold.
  destruct (geoKeys !! (4 + 4 * k)%nat) eqn:E.
  - rewrite Hk. reflexivity.
  - apply lookup_ge_None_1 in E. lia.
Qed.

(** X4. [getEPSG] returns the value of the first key entry after the
    header (entries lie at the indices 4, 8, 12, ...) whose key id is 3072
    (projected CRS) or 2048 (geographic CRS) and whose value is positive. *)
Theorem X4_getEPSG_first_entry (geoKeys : list Z) (k : nat) (keyId v : Z) :
  geoKeys !! (4 + 4 * k)%nat = Some keyId ->
  geoKeys !! (4 + 4 * k + 3)%nat = Some v ->
  keyId = 3072%Z \/ keyId = 2048%Z ->
  (0 < v)%Z ->
  (forall j, (j < k)%nat -> codeAt geoKeys (4 + 4 * j) = None) ->
  getEPSG (Some geoKeys) = v.
Proof.
  intros Hid Hv Hkey Hpos Hno. unfold getEPSG.
  rewrite (scan_first geoKeys k v); [reflexivity| |exact Hno].
  unfold codeAt. rewrite Hid. apply entryCode_Some. auto.
Qed.

Lemma X4_getEPSG_first_entry_witness :
  getEPSG (Some [1; 1; 0; 3; 1024; 0; 1; 1; 3072; 0; 1; 32630;
                 3076; 0; 1; 9001]%Z) = 32630%Z.
Proof.
  apply (X4_getEPSG_first_entry _ 1 3072 32630);
    [reflexivity|reflexivity|left; reflexivity|lia|].
  intros j Hj. assert (j = 0%nat) as -> by lia. reflexivity.
Defined.

(** X5. [getEPSG] falls back to 32601 when there is nothing to return: for
    a missing directory, and for a directory none of whose key entries after
    the header has the key id 3072 or 2048 with a positive value (a directory
    of at most four numbers has no such entry). *)
Theorem X5_getEPSG_fallback (geoKeys : list Z) :
  getEPSG None = 32601%Z /\
  ((forall j, codeAt geoKeys (4 + 4 * j) = None) ->
   getEPSG (Some geoKeys) = 32601%Z) /\
  ((length geoKeys <= 4)%nat -> getEPSG (Some geoKeys) = 32601%Z).
Proof.
  split; [reflexivity|]. split.
  - intros H. unfold getEPSG. rewrite scan_none by exact H. reflexivity.
  - intros H. unfold getEPSG. rewrite scan_past_end by exact H. reflexivity.
Qed.

Lemma X5_getEPSG_fallback_witness :
  getEPSG (Some [1; 1; 0; 1; 3072; 0; 1]%Z) = 32601%Z /\
  getEPSG (Some [1; 1; 0]%Z) = 32601%Z.
Proof.
  split.
  - apply (proj1 (proj2 (X5_getEPSG_fallback [1; 1; 0; 1; 3072; 0; 1]%Z))).
    intros [|j]; [reflexivity|].
    unfold codeAt. rewrite lookup_ge_None_2; [reflexivity|cbn; lia].
  - apply (proj2 (proj2 (X5_getEPSG_fallback [1; 1; 0]%Z))). cbn. lia.
Defined.

(** X6. Whatever the directory holds, the code [getEPSG] returns is
    positive, and it is either the fallback 32601 or the value of a key entry
    of the directory with the key id 3072 or 2048; the four numbers of the
    header are never taken for an entry. *)
Theorem X6_getEPSG_sound (geoKeyDirectory : option (list Z)) :
  (0 < getEPSG geoKeyDirectory)%Z /\
  (getEPSG geoKeyDirectory = 32601%Z \/
   exists geoKeys k keyId,
     geoKeyDirectory = Some geoKeys /\
     geoKeys !! (4 + 4 * k)%nat = Some keyId /\
     (keyId = 3072%Z \/ keyId = 2048%Z) /\
     geoKeys !! (4 + 4 * k + 3)%nat = Some (getEPSG geoKeyDirectory)).
Proof.
  destruct geoKeyDirectory as [geoKeys|]; [|split; [reflexivity|left; reflexivity]].
  unfold getEPSG.
  destruct (scan (length geoKeys) geoKeys 4) as [v|] eqn:E;
    [|split; [reflexivity|left; reflexivity]].
  destruct (scan_sound _ _ _ _ E) as (k & Hk & _).
  unfold codeAt in Hk.
  destruct (geoKeys !! (4 + 4 * k)%nat) as [keyId|] eqn:Ek; [|discriminate].
  apply entryCode_Some in Hk as (Hv & Hpos & Hkey).
  cbn [default]. split; [exact Hpos|].
  right. exists geoKeys, k, keyId. auto.
Qed.

End EpsgFacts.

(** ** More on the index computer *)

Module NdviMore.
Import Js Ndvi NdviFacts NdviStats.

(** An invariant of the loop body holds of the whole loop. *)
Lemma foldl_invariant (P : list num -> Acc -> Prop) (red nir : list num) :
  (forall vs s i, P vs s -> P (vs ++ [value red nir i]) (step red nir s i)) ->
  forall (l : list nat) (vs : list num) (s : Acc),
  P vs s -> P (vs ++ (value red nir <$> l)) (foldl (step red nir) s l).
Proof.
  intros Hstep l. induction l as [|i l IH]; intros vs s H; cbn.
  - rewrite app_nil_r. exact H.
  - rewrite (cons_middle _ vs), app_assoc. apply IH, Hstep, H.
Qed.

Lemma loop_invariant (P : list num -> Acc -> Prop) (red nir : list num) (n : nat) :
  (forall vs s i, P vs s -> P (vs ++ [value red nir i]) (step red nir s i)) ->
  P [] (init n) -> P (ndvi (loop red nir n)) (loop red nir n).
Proof.
  intros Hstep H0. rewrite loop_ndvi. unfold loop.
  apply (foldl_invariant P red nir Hstep (seq 0 n) [] (init n)), H0.
Qed.

(** *** Minimum and maximum *)

Lemma Extremes_step (red nir : list num) (vs : list num) (s : Acc) (i : nat) :
  Extremes vs s -> Extremes (vs ++ [value red nir i]) (step red nir s i).
Proof.
  intros (Hb & Hmin & Hmax). unfold Extremes, step.
  destruct (value_range red nir i) as [E | (q & E & _)]; rewrite E.
  - cbn [isNaN minV maxV]. split; [|split].
    + intros q' Hin. apply in_app_or in Hin as [Hin | [Hin | []]];
        [apply Hb, Hin|discriminate].
    + destruct Hmin as [H | (lo & H & Hin)]; [left; exact H|].
      right. exists lo. split; [exact H|]. apply in_or_app. left. exact Hin.
    + destruct Hmax as [H | (hi & H & Hin)]; [left; exact H|].
      right. exists hi. split; [exact H|]. apply in_or_app. left. exact Hin.
  - cbn [isNaN minV maxV].
    assert (Last : In (Fin q) (vs ++ [Fin q])) by (apply in_or_app; right; left; reflexivity).
    destruct Hmin as [Emin | (lo & Emin & Ilo)], Hmax as [Emax | (hi & Emax & Ihi)].
    + rewrite Emin, Emax. cbn. split; [|split].
      * intros q' Hin. apply in_app_or in Hin as [Hin | [Hin | []]].
        -- destruct (Hb q' Hin) as (lo & hi & Hlo & _). rewrite Emin in Hlo.
           discriminate.
        -- injection Hin as <-. exists q, q. repeat split; apply Qle_refl.
      * right. exists q. split; [reflexivity|exact Last].
      * right. exists q. split; [reflexivity|exact Last].
    + destruct (Hb hi Ihi) as (lo' & hi' & Hlo & _). rewrite Emin in Hlo.
      discriminate.
    + destruct (Hb lo Ilo) as (lo' & hi' & _ & Hhi & _). rewrite Emax in Hhi.
      discriminate.
    + rewrite Emin, Emax. unfold gt. cbn [lt].
      destruct (Hb lo Ilo) as (lo' & hi' & Hlo & Hhi & _ & Hle).
      rewrite Emin in Hlo. rewrite Emax in Hhi.
      injection Hlo as <-. injection Hhi as <-.
      split; [|split].
      * intros q' Hin. apply in_app_or in Hin as [Hin | [Hin | []]].
        -- destruct (Hb q' Hin) as (lo' & hi' & Hlo & Hhi & B1 & B2).
           rewrite Emin in Hlo. rewrite Emax in Hhi.
           injection Hlo as <-. injection Hhi as <-.
           destruct (Qltb_spec q lo), (Qltb_spec hi q);
             eexists; eexists; split_ands; try reflexivity; lra.
        -- injection Hin as <-.
           destruct (Qltb_spec q lo), (Qltb_spec hi q);
             eexists; eexists; split_ands; try reflexivity; lra.
      * right. destruct (Qltb_spec q lo).
        -- exists q. split; [reflexivity|exact Last].
        -- exists lo. split; [reflexivity|]. apply in_or_app. left. exact Ilo.
      * right. destruct (Qltb_spec hi q).
        -- exists q. split; [reflexivity|exact Last].
        -- exists hi. split; [reflexivity|]. apply in_or_app. left. exact Ihi.
Qed.

Lemma Extremes_loop (red nir : list num) (n : nat) :
  Extremes (ndvi (loop red nir n)) (loop red nir n).
Proof.
  apply (loop_invariant Extremes); [apply Extremes_step|].
  split; [intros q []|]. split; left; reflexivity.
Qed.


Lemma loop_of_result (redData nirData : Band) :
  exists s,
    s = loop (data redData) (data nirData)
          (Nat.min (width redData) (width nirData)
           * Nat.min (height redData) (height nirData)) /\
    res_ndvi (computeNDVIArray redData nirData) = ndvi s /\
    stat_min (stats (computeNDVIArray redData nirData)) = minV s /\
    stat_max (stats (computeNDVIArray redData nirData)) = maxV s /\
    stat_mean (stats (computeNDVIArray redData nirData))
      = (if (0 <? cnt s)%Z then div (sum s) (ofZ (cnt s)) else Fin 0) /\
    vegPct (stats (computeNDVIArray redData nirData))
      = (if (0 <? cnt s)%Z
         then mul (div (ofZ (veg s)) (ofZ (cnt s))) (Fin 100) else Fin 0).
Proof. eexists. split; [reflexivity|]. repeat split. Qed.

(** *** NoData and the two calibrated values *)



(** *** Exchanging the bands *)

Lemma index_swap (r n : num) :
  within 0 1 r -> within 0 1 n -> eqv (index n r) (neg (index r n)).
Proof.
  intros [-> | (x & -> & Hx0 & Hx1)].
  { intros _. rewrite index_nan_l, index_nan_r. exact I. }
  intros [-> | (y & -> & Hy0 & Hy1)].
  { rewrite index_nan_l, index_nan_r. exact I. }
  destruct (Qlt_le_dec 0 (y + x)) as [H|H].
  - rewrite (index_fin x y H), (index_fin y x) by lra. cbn. field. lra.
  - rewrite (index_nodata x y), (index_nodata y x) by lra. exact I.
Qed.

(** X7. When at least one sample is valid, the statistics are finite
    numbers: [-1 <= min <= max <= 1], the mean lies in [[-1, 1]], and the
    vegetation cover is a percentage between 0 and 100. *)
Theorem X7_stats_in_range (redData nirData : Band) :
  (0 < validCount (res_ndvi (computeNDVIArray redData nirData)))%Z ->
  exists lo mean hi pct,
    stats (computeNDVIArray redData nirData) =
      {| stat_min := Fin lo; stat_mean := Fin mean;
         stat_max := Fin hi; vegPct := Fin pct |} /\
    -1 <= lo /\ lo <= hi /\ hi <= 1 /\
    -1 <= mean /\ mean <= 1 /\
    0 <= pct /\ pct <= 100.
Proof.
  intros H.
  destruct (stats_ordered redData nirData H)
    as (lo & mean & hi & pct & E & A & B & C & D & P0 & P1).
  exists lo, mean, hi, pct. split; [exact E|]. split_ands; lra.
Qed.

Lemma X7_stats_in_range_witness :
  exists lo mean hi pct,
    stats (computeNDVIArray red_pair nir_pair) =
      {| stat_min := Fin lo; stat_mean := Fin mean;
         stat_max := Fin hi; vegPct := Fin pct |} /\
    -1 <= lo /\ lo <= hi /\ hi <= 1 /\
    -1 <= mean /\ mean <= 1 /\
    0 <= pct /\ pct <= 100.
Proof. exact (X7_stats_in_range red_pair nir_pair ltac:(reflexivity)). Defined.

(** X8. The minimum and the maximum bound every index value the loop
    computes (the value [v] of an iteration, before it is stored as a sample
    of the array), and each of them is the value of some iteration. *)
Theorem X8_min_max_of_values (redData nirData : Band) (i : nat) (q : Q) :
  let n := (Nat.min (width redData) (width nirData)
            * Nat.min (height redData) (height nirData))%nat in
  (i < n)%nat ->
  value (data redData) (data nirData) i = Fin q ->
  exists lo hi,
    stat_min (stats (computeNDVIArray redData nirData)) = Fin lo /\
    stat_max (stats (computeNDVIArray redData nirData)) = Fin hi /\
    lo <= q /\ q <= hi /\
    (exists j, (j < n)%nat /\ value (data redData) (data nirData) j = Fin lo) /\
    (exists k, (k < n)%nat /\ value (data redData) (data nirData) k = Fin hi).
Proof.
  intros n Hi Hq.
  destruct (loop_of_result redData nirData) as (s & Es & _ & Emin & Emax & _).
  rewrite Emin, Emax. clear Emin Emax. fold n in Es.
  destruct (Extremes_loop (data redData) (data nirData) n) as (Hb & Hmin & Hmax).
  rewrite loop_ndvi in Hb, Hmin, Hmax. rewrite <- Es in Hb, Hmin, Hmax.
  assert (At : forall x, In (Fin x)
                           (value (data redData) (data nirData) <$> seq 0 n) ->
               exists j, (j < n)%nat /\
                         value (data redData) (data nirData) j = Fin x).
  { intros x Hin. apply list_elem_of_In, list_elem_of_fmap in Hin.
    destruct Hin as (j & E & Hj). apply elem_of_seq in Hj.
    exists j. split; [lia|symmetry; exact E]. }
  assert (Hin : In (Fin q) (value (data redData) (data nirData) <$> seq 0 n)).
  { apply list_elem_of_In, list_elem_of_fmap. exists i.
    split; [symmetry; exact Hq|]. apply elem_of_seq. lia. }
  destruct (Hb q Hin) as (lo & hi & Elo & Ehi & B1 & B2).
  exists lo, hi. split_ands; try assumption.
  - destruct Hmin as [H | (lo' & H & Hlo)]; rewrite Elo in H;
      [discriminate|]. injection H as ->. apply At, Hlo.
  - destruct Hmax as [H | (hi' & H & Hhi)]; rewrite Ehi in H;
      [discriminate|]. injection H as ->. apply At, Hhi.
Qed.

Lemma X8_min_max_of_values_witness :
  exists lo hi q,
    value (data red_pair) (data nir_pair) 1 = Fin q /\
    stat_min (stats (computeNDVIArray red_pair nir_pair)) = Fin lo /\
    stat_max (stats (computeNDVIArray red_pair nir_pair)) = Fin hi /\
    lo <= q /\ q <= hi.
Proof.
  assert (exists q, value (data red_pair) (data nir_pair) 1 = Fin q) as [q Hq]
    by (eexists; vm_compute; reflexivity).
  destruct (X8_min_max_of_values red_pair nir_pair 1 q
              ltac:(cbn; lia) Hq)
    as (lo & hi & A & B & C & D & _).
  exists lo, hi, q. auto.
Defined.



(** X11. Exchanging the two bands negates the index: at every position the
    array computed from (near-infrared, red) holds the negative of the value
    computed from (red, near-infrared), and NoData where that one is
    NoData. *)
Theorem X11_band_swap_negates (redData nirData : Band) (i : nat) (v : num) :
  res_ndvi (computeNDVIArray redData nirData) !! i = Some v ->
  exists v', res_ndvi (computeNDVIArray nirData redData) !! i = Some v' /\
             eqv v' (neg v).
Proof.
  intros Hv.
  assert (Hi : (i < Nat.min (width redData) (width nirData)
                    * Nat.min (height redData) (height nirData))%nat).
  { apply lookup_lt_Some in Hv.
    destruct (result_shape redData nirData) as (_ & _ & L).
    rewrite L in Hv. exact Hv. }
  rewrite (result_lookup _ _ _ Hi) in Hv. injection Hv as <-.
  exists (value (data nirData) (data redData) i). split.
  - apply result_lookup.
    rewrite (Nat.min_comm (width nirData)), (Nat.min_comm (height nirData)).
    exact Hi.
  - apply index_swap; apply reflectance_range.
Qed.

Lemma X11_band_swap_negates_witness :
  exists v', res_ndvi (computeNDVIArray nir_pair red_pair) !! 0%nat = Some v' /\
             eqv v' (neg (value (data red_pair) (data nir_pair) 0)).
Proof.
  exact (X11_band_swap_negates red_pair nir_pair 0 _
           (result_lookup red_pair nir_pair 0 ltac:(cbn; lia))).
Defined.

End NdviMore.

(** ** More on the colormaps *)

Module PaletteMore.
Import Palette JsMath JsMathFacts PaletteFacts Bytes.

(** A channel interpolated with a fraction of [[0, 1]] stays between the two
    stops. *)
Lemma mix_between (a b : Z) (f : Q) : 0 <= f -> f <= 1 -> between a b (mix a b f).
Proof.
  intros H0 H1. unfold between, mix.
  set (x := inject_Z a + (inject_Z b - inject_Z a) * f).
  assert (Lo : inject_Z (Z.min a b) <= x).
  { destruct (Z.min_spec a b) as [[L E]|[L E]]; rewrite E.
    - assert (inject_Z a <= inject_Z b) by (rewrite <- Zle_Qle; lia).
      subst x. nra.
    - assert (inject_Z b <= inject_Z a) by (rewrite <- Zle_Qle; lia).
      subst x. nra. }
  assert (Hi : x <= inject_Z (Z.max a b)).
  { destruct (Z.max_spec a b) as [[L E]|[L E]]; rewrite E.
    - assert (inject_Z a <= inject_Z b) by (rewrite <- Zle_Qle; lia).
      subst x. nra.
    - assert (inject_Z b <= inject_Z a) by (rewrite <- Zle_Qle; lia).
      subst x. nra. }
  split.
  - rewrite <- (round_Z (Z.min a b)). apply round_mono, Lo.
  - rewrite <- (round_Z (Z.max a b)). apply round_mono, Hi.
Qed.

(** The fraction between the two stops, for [t] within [[0, 1]]. *)
Lemma fraction_range (t : Q) (n : Z) :
  0 <= t -> t <= 1 -> (1 <= n)%Z ->
  let pos := t * inject_Z n in
  let i := Z.min (floor pos) (n - 1) in
  0 <= pos - inject_Z i /\ pos - inject_Z i <= 1.
Proof.
  intros H0 H1 Hn pos i.
  assert (Qn : 1 <= inject_Z n).
  { change 1 with (inject_Z 1). rewrite <- Zle_Qle. exact Hn. }
  assert (Pn : pos <= inject_Z n) by (subst pos; nra).
  pose proof (Qfloor_le pos) as Fl. pose proof (Qlt_floor pos) as Fu.
  rewrite inject_Z_plus in Fu. change (inject_Z 1) with 1 in Fu.
  destruct (Z.min_spec (floor pos) (n - 1)) as [[L E]|[L E]]; subst i; rewrite E.
  - unfold floor. lra.
  - assert (inject_Z (n - 1) <= inject_Z (floor pos)) by (rewrite <- Zle_Qle; lia).
    unfold Z.sub in *. rewrite inject_Z_plus, inject_Z_opp in *.
    change (inject_Z 1) with 1 in *. unfold floor in *. lra.
Qed.

(** Within [[0, 1]] the colour is a mixture, with a fraction of [[0, 1]], of
    two neighbouring stops. *)
Lemma interp_mixture (t : Q) (stops : list Color) :
  0 <= t -> t <= 1 -> (2 <= length stops)%nat ->
  exists a0 a1 a2 b0 b1 b2 f,
    In (a0, a1, a2) stops /\ In (b0, b1, b2) stops /\
    0 <= f /\ f <= 1 /\
    interp t stops = Some (mix a0 b0 f, mix a1 b1 f, mix a2 b2 f).
Proof.
  intros H0 H1 Hl.
  destruct (interp_defined t stops H0 H1 Hl) as (A & B & _).
  set (n := (Z.of_nat (length stops) - 1)%Z) in *.
  set (i := Z.min (floor (t * inject_Z n)) (n - 1)) in *.
  destruct (fraction_range t n H0 H1 ltac:(subst n; lia)) as (F0 & F1).
  fold i in F0, F1.
  destruct A as [[[a0 a1] a2] Ea], B as [[[b0 b1] b2] Eb].
  exists a0, a1, a2, b0, b1, b2, (t * inject_Z n - inject_Z i).
  assert (InA : In (a0, a1, a2) stops).
  { unfold stopAt in Ea. destruct (i <? 0)%Z; [discriminate|].
    apply list_elem_of_In, (list_elem_of_lookup_2 _ _ _ Ea). }
  assert (InB : In (b0, b1, b2) stops).
  { unfold stopAt in Eb. destruct (i + 1 <? 0)%Z; [discriminate|].
    apply list_elem_of_In, (list_elem_of_lookup_2 _ _ _ Eb). }
  split; [exact InA|]. split; [exact InB|]. split; [exact F0|].
  split; [exact F1|].
  unfold interp. fold n. fold i. rewrite Ea, Eb. reflexivity.
Qed.

Lemma stops_valid (name : string) (c : Color) :
  In c (stopsOf name) -> validColor c.
Proof.
  destruct (stopsOf_cases name) as [E | [E | [E | [E | E]]]]; rewrite E;
    cbn; intros H;
    repeat (destruct H as [<- | H]; [unfold validColor, isByte; lia|]);
    destruct H.
Qed.

Lemma between_byte (a b z : Z) : isByte a -> isByte b -> between a b z -> isByte z.
Proof. unfold isByte, between. lia. Qed.

Lemma applyColormap_valid (t : Q) (name : string) :
  0 <= t -> t <= 1 ->
  exists c, applyColormap t name = Some c /\ validColor c.
Proof.
  intros H0 H1.
  destruct (interp_mixture t (stopsOf name) H0 H1 (stopsOf_length name))
    as (a0 & a1 & a2 & b0 & b1 & b2 & f & Ia & Ib & F0 & F1 & E).
  eexists. split; [exact E|].
  destruct (stops_valid name _ Ia) as (A0 & A1 & A2).
  destruct (stops_valid name _ Ib) as (B0 & B1 & B2).
  repeat split; eapply between_byte; try apply mix_between; eassumption.
Qed.

(** At the position of a stop the colour is the stop. *)
Lemma interp_at_stop (stops : list Color) (k : nat) :
  (2 <= length stops)%nat -> (k < length stops)%nat ->
  interp (inject_Z (Z.of_nat k) / inject_Z (Z.of_nat (length stops) - 1)) stops
  = stops !! k.
Proof.
  intros Hl Hk. unfold interp. cbv zeta.
  set (n := (Z.of_nat (length stops) - 1)%Z).
  assert (Hn : (1 <= n)%Z) by (subst n; lia).
  assert (Hkn : (Z.of_nat k <= n)%Z) by (subst n; lia).
  assert (Hlen : Z.of_nat (length stops) = (n + 1)%Z) by (subst n; lia).
  clearbody n.
  assert (Qn : 0 < inject_Z n).
  { change 0 with (inject_Z 0). rewrite <- Zlt_Qlt. lia. }
  assert (P : inject_Z (Z.of_nat k) / inject_Z n * inject_Z n
              == inject_Z (Z.of_nat k)) by (field; lra).
  assert (Ef : floor (inject_Z (Z.of_nat k) / inject_Z n * inject_Z n)
               = Z.of_nat k).
  { rewrite (floor_proper _ _ P). apply Qfloor_Z. }
  rewrite Ef.
  destruct (Z_le_gt_dec (Z.of_nat k) (n - 1)) as [L|L].
  - replace (Z.min (Z.of_nat k) (n - 1)) with (Z.of_nat k) by lia.
    destruct (stopAt_in_range stops (Z.of_nat k) ltac:(lia)) as [[[a0 a1] a2] Ea].
    destruct (stopAt_in_range stops (Z.of_nat k + 1) ltac:(lia))
      as [[[b0 b1] b2] Eb].
    rewrite Ea, Eb.
    assert (F : inject_Z (Z.of_nat k) / inject_Z n * inject_Z n
                - inject_Z (Z.of_nat k) == 0) by (rewrite P; ring).
    rewrite (mix_0 a0 b0 _ F), (mix_0 a1 b1 _ F), (mix_0 a2 b2 _ F).
    transitivity (stopAt stops (Z.of_nat k)); [symmetry; exact Ea|].
    unfold stopAt. destruct (Z.ltb_spec (Z.of_nat k) 0); [lia|].
    rewrite Nat2Z.id. reflexivity.
  - assert (Ek : Z.of_nat k = n) by lia.
    replace (Z.min (Z.of_nat k) (n - 1)) with (n - 1)%Z by lia.
    replace (n - 1 + 1)%Z with n by lia.
    destruct (stopAt_in_range stops (n - 1) ltac:(lia)) as [[[a0 a1] a2] Ea].
    destruct (stopAt_in_range stops n ltac:(lia)) as [[[b0 b1] b2] Eb].
    rewrite Ea, Eb.
    assert (F : inject_Z (Z.of_nat k) / inject_Z n * inject_Z n
                - inject_Z (n - 1) == 1).
    { rewrite P, Ek. unfold Z.sub. rewrite inject_Z_plus, inject_Z_opp.
      change (inject_Z 1) with 1. ring. }
    rewrite (mix_1 a0 b0 _ F), (mix_1 a1 b1 _ F), (mix_1 a2 b2 _ F).
    transitivity (stopAt stops n); [symmetry; exact Eb|].
    unfold stopAt. destruct (Z.ltb_spec n 0); [lia|].
    rewrite <- Ek, Nat2Z.id. reflexivity.
Qed.

(** X12. For every palette name and every [t] of [[0, 1]] the colormap
    returns a colour whose three channels are bytes (integers from 0 to
    255): each channel lies between the channels of two stops of the
    palette. *)
Theorem X12_colours_are_bytes (t : Q) (name : string) :
  0 <= t -> t <= 1 ->
  exists c, applyColormap t name = Some c /\ validColor c.
Proof. apply applyColormap_valid. Qed.

Lemma X12_colours_are_bytes_witness :
  exists c, applyColormap (7 # 10) "spectral" = Some c /\ validColor c.
Proof.
  exact (X12_colours_are_bytes (7 # 10) "spectral"
           ltac:(discriminate) ltac:(discriminate)).
Defined.

(** X13. The colormap passes through its stops: for a palette of [n + 1]
    stops, at [t = k / n] the colour is exactly the stop number [k]
    (counted from 0). *)
Theorem X13_passes_through_stops (name : string) (k : nat) :
  (k < length (stopsOf name))%nat ->
  applyColormap
    (inject_Z (Z.of_nat k) / inject_Z (Z.of_nat (length (stopsOf name)) - 1))
    name
  = stopsOf name !! k.
Proof.
  intros Hk. apply interp_at_stop; [apply stopsOf_length|exact Hk].
Qed.

Lemma X13_passes_through_stops_witness :
  applyColormap (3 / 4) "viridis" = Some (94, 201, 98)%Z.
Proof.
  exact (X13_passes_through_stops "viridis" 3 ltac:(cbn; lia)).
Defined.

(** *** Images and legends *)

Lemma mapM_seq_lookup {B : Type} (f : nat -> option B) (n : nat) (k : list B) :
  mapM f (seq 0 n) = Some k ->
  length k = n /\ forall i y, k !! i = Some y -> f i = Some y.
Proof.
  intros H. apply mapM_Some_1 in H. split.
  - apply Forall2_length in H. rewrite length_seq in H. symmetry. exact H.
  - intros i y Hy.
    destruct (Forall2_lookup_r _ _ _ _ _ H Hy) as (x & Hx & Hf).
    apply lookup_seq in Hx as (-> & _). exact Hf.
Qed.

Lemma renderPixel_cases (v : Js.num) (name : string) (px : Color * Z) :
  renderPixel v name = Some px ->
  (Js.isNaN v = true -> px = ((30, 30, 30)%Z, 0%Z)) /\
  (Js.isNaN v = false -> snd px = 255%Z /\ validColor (fst px)).
Proof.
  intros H. split; intros Hn.
  - unfold renderPixel in H. rewrite Hn in H. injection H as <-. reflexivity.
  - assert (F : forall t, 0 <= t -> t <= 1 ->
                          opaque (applyColormap t name) = Some px ->
                          snd px = 255%Z /\ validColor (fst px)).
    { intros t H0 H1 E.
      destruct (applyColormap_valid t name H0 H1) as (c & Ec & Vc).
      rewrite Ec in E. injection E as <-. split; [reflexivity|exact Vc]. }
    destruct v as [| |q|]; [discriminate| | |].
    + apply (F 0); [discriminate|discriminate|exact H].
    + rewrite renderPixel_fin in H.
      apply (F (Qmax 0 (Qmin 1 ((q + 1) / 2)))); [apply Q.le_max_l| |exact H].
      apply Q.max_lub; [discriminate|apply Q.le_min_l].
    + apply (F (Qmax 0 1)); [discriminate|discriminate|exact H].
Qed.

(** The legend position of column [x] of a bar at least two pixels wide. *)
Lemma position_fin (x W : nat) :
  (2 <= W)%nat ->
  Legend.position x W
  = Js.Fin (inject_Z (Z.of_nat x) / inject_Z (Z.of_nat W - 1)).
Proof.
  intros H. unfold Legend.position, Js.div.
  rewrite NdviFacts.Qeq_bool_false_pos; [reflexivity|].
  change 0 with (inject_Z 0). rewrite <- Zlt_Qlt. lia.
Qed.

Lemma position_range (x W : nat) :
  (2 <= W)%nat -> (x < W)%nat ->
  0 <= inject_Z (Z.of_nat x) / inject_Z (Z.of_nat W - 1) /\
  inject_Z (Z.of_nat x) / inject_Z (Z.of_nat W - 1) <= 1.
Proof.
  intros HW Hx.
  assert (P : 0 < inject_Z (Z.of_nat W - 1)).
  { change 0 with (inject_Z 0). rewrite <- Zlt_Qlt. lia. }
  assert (X0 : 0 <= inject_Z (Z.of_nat x)).
  { change 0 with (inject_Z 0). rewrite <- Zle_Qle. lia. }
  assert (X1 : inject_Z (Z.of_nat x) <= inject_Z (Z.of_nat W - 1)).
  { rewrite <- Zle_Qle. lia. }
  split.
  - apply Qle_shift_div_l; [exact P|]. lra.
  - apply Qle_shift_div_r; [exact P|]. lra.
Qed.

(** X14. For a grid of 1 to 1024 samples a side (the sizes [readCOGWindow]
    asks for) [renderNDVIToCanvas] does not fail, whatever the array holds:
    it writes [width * height] pixels; a NoData sample (or a read past the
    end of the array) becomes the transparent pixel (30, 30, 30, 0); every
    other sample becomes an opaque pixel (alpha 255) whose three colour
    channels are bytes.  For a grid with a side of zero it fails, in the
    creation of the image data. *)
Theorem X14_canvas_pixels (ndvi : list Js.num) (width height : nat)
  (name : string) :
  ((0 < width <= 1024)%nat -> (0 < height <= 1024)%nat ->
   exists img,
     renderNDVIToCanvas ndvi width height name = Some img /\
     length img = (width * height)%nat /\
     forall i px, img !! i = Some px ->
       (Js.isNaN (default Js.NaN (ndvi !! i)) = true ->
        px = ((30, 30, 30)%Z, 0%Z)) /\
       (Js.isNaN (default Js.NaN (ndvi !! i)) = false ->
        snd px = 255%Z /\ validColor (fst px))) /\
  (width = 0%nat \/ height = 0%nat ->
   renderNDVIToCanvas ndvi width height name = None).
Proof.
  split.
  - intros [Hw _] [Hh _].
    destruct (renderNDVIToCanvas_defined ndvi width height name Hw Hh)
      as [img E].
    exists img. split; [exact E|].
    unfold renderNDVIToCanvas in E.
    rewrite (createImageData_defined width height Hw Hh) in E.
    destruct (mapM_seq_lookup _ _ _ E) as (L & Hpx).
    split; [exact L|].
    intros i px Hi. apply (renderPixel_cases _ name), Hpx, Hi.
  - intros H. unfold renderNDVIToCanvas, createImageData.
    destruct H as [-> | ->]; [reflexivity|].
    rewrite orb_true_r. reflexivity.
Qed.

Lemma X14_canvas_pixels_witness :
  (exists img,
     renderNDVIToCanvas [Js.Fin (1 # 2); Js.NaN] 2 1 "greens" = Some img /\
     length img = 2%nat /\
     forall i px, img !! i = Some px ->
       (Js.isNaN (default Js.NaN ([Js.Fin (1 # 2); Js.NaN] !! i)) = true ->
        px = ((30, 30, 30)%Z, 0%Z)) /\
       (Js.isNaN (default Js.NaN ([Js.Fin (1 # 2); Js.NaN] !! i)) = false ->
        snd px = 255%Z /\ validColor (fst px))) /\
  renderNDVIToCanvas [Js.Fin (1 # 2); Js.NaN] 0 1 "greens" = None.
Proof.
  split.
  - apply (proj1 (X14_canvas_pixels [Js.Fin (1 # 2); Js.NaN] 2 1 "greens"));
      lia.
  - apply (proj2 (X14_canvas_pixels [Js.Fin (1 # 2); Js.NaN] 0 1 "greens")).
    left. reflexivity.
Defined.

(** X15. For a legend bar at least two pixels wide [buildLegend] paints one
    colour per column, the first column in exactly the first stop of the
    palette and the last column in exactly its last stop, every colour being
    made of bytes. *)
Theorem X15_legend_bar (W : nat) (name : string) :
  (2 <= W)%nat ->
  exists cols,
    Legend.buildLegend W name = Some cols /\
    length cols = W /\
    head cols = firstStop (stopsOf name) /\
    last cols = lastStop (stopsOf name) /\
    forall c, In c cols -> validColor c.
Proof.
  intros HW.
  assert (D : is_Some (Legend.buildLegend W name)).
  { apply mapM_is_Some, Forall_forall. intros x Hx.
    apply elem_of_seq in Hx as (_ & Hx). unfold compose.
    rewrite (position_fin x W HW).
    destruct (position_range x W HW ltac:(lia)) as (P0 & P1).
    destruct (applyColormap_valid _ name P0 P1) as (c & -> & _).
    eexists. reflexivity. }
  destruct D as [cols E]. exists cols. split; [exact E|].
  destruct (mapM_seq_lookup _ _ _ E) as (L & Hc).
  split; [exact L|].
  assert (At : forall x c, cols !! x = Some c ->
                 applyColormap
                   (inject_Z (Z.of_nat x) / inject_Z (Z.of_nat W - 1)) name
                 = Some c).
  { intros x c Hx. pose proof (Hc x c Hx) as H.
    cbv beta in H. rewrite (position_fin x W HW) in H. exact H. }
  assert (P : 0 < inject_Z (Z.of_nat W - 1)).
  { change 0 with (inject_Z 0). rewrite <- Zlt_Qlt. lia. }
  split; [|split].
  - rewrite head_lookup.
    destruct (lookup_lt_is_Some_2 cols 0 ltac:(lia)) as [c Hx].
    rewrite Hx, <- (At 0%nat c Hx).
    apply interp_0; [|apply stopsOf_length].
    change (inject_Z (Z.of_nat 0)) with 0. field. lra.
  - rewrite last_lookup.
    destruct (lookup_lt_is_Some_2 cols (pred (length cols)) ltac:(lia)) as [c Hx].
    rewrite Hx, <- (At _ c Hx).
    apply interp_1; [|apply stopsOf_length].
    rewrite L. replace (Z.of_nat (pred W)) with (Z.of_nat W - 1)%Z by lia.
    field. lra.
  - intros c Hin. apply list_elem_of_In, list_elem_of_lookup in Hin as [x Hx].
    pose proof (At x c Hx) as Ec.
    apply lookup_lt_Some in Hx as Hlt. rewrite L in Hlt.
    destruct (position_range x W HW Hlt) as (P0 & P1).
    destruct (applyColormap_valid _ name P0 P1) as (c' & Ec' & V).
    rewrite Ec in Ec'. injection Ec' as <-. exact V.
Qed.

Lemma X15_legend_bar_witness :
  exists cols,
    Legend.buildLegend 5 "ylgn" = Some cols /\
    length cols = 5%nat /\
    head cols = Some (255, 255, 229)%Z /\
    last cols = Some (0, 104, 55)%Z.
Proof.
  destruct (X15_legend_bar 5 "ylgn" ltac:(lia)) as (cols & A & B & C & D & _).
  exists cols. auto.
Defined.

(** X16. The legend and the raster use one colour scale: for [t] of
    [[0, 1]] the colour of the legend at position [t] is the colour the
    raster renderer gives to the index value [2 t - 1]. *)
Theorem X16_legend_matches_raster (t : Q) (name : string) :
  0 <= t -> t <= 1 ->
  renderPixel (Js.Fin (2 * t - 1)) name = opaque (applyColormap t name).
Proof.
  intros H0 H1. rewrite renderPixel_fin. f_equal.
  apply applyColormap_proper.
  assert (E : (2 * t - 1 + 1) / 2 == t) by field.
  rewrite E, (Q.min_r 1 t) by exact H1. apply Q.max_r, H0.
Qed.

Lemma X16_legend_matches_raster_witness :
  renderPixel (Js.Fin (2 * (1 # 4) - 1)) "rdylgn"
  = opaque (applyColormap (1 # 4) "rdylgn").
Proof.
  exact (X16_legend_matches_raster (1 # 4) "rdylgn"
           ltac:(discriminate) ltac:(discriminate)).
Defined.

End PaletteMore.

(** ** More on URL signing *)

Module StacMore.
Import Stac StacFacts Retry.

(** A fetch that did not succeed on an attempt before the last one is
    followed by a sleep and the next attempt, whatever went wrong. *)
Lemma attempts_retry (fetch : nat -> FetchResult) (remaining attempt : nat)
  (delay : Z) (trace : list Event) :
  succeeded (fetch attempt) = false -> (attempt <> MAX_RETRIES)%nat ->
  attempts fetch (S remaining) attempt delay trace
  = attempts fetch remaining (S attempt) (delay * 2)%Z
      ((trace ++ [Fetch attempt]) ++ [Sleep delay]).
Proof.
  intros Hf Hne. cbn [attempts]. unfold catch.
  destruct (Nat.eqb_spec attempt MAX_RETRIES) as [E|_]; [contradiction|].
  destruct (fetch attempt) as [|status [href|]]; cbn in Hf.
  - reflexivity.
  - rewrite Hf. destruct (status =? 429)%Z; reflexivity.
  - destruct (ok status); [reflexivity|]. destruct (status =? 429)%Z; reflexivity.
Qed.

Lemma attempts_success (fetch : nat -> FetchResult) (remaining attempt : nat)
  (delay : Z) (trace : list Event) (status : Z) (href : string) :
  fetch attempt = Response status (Some href) -> ok status = true ->
  attempts fetch (S remaining) attempt delay trace
  = (Returned href, trace ++ [Fetch attempt]).
Proof. intros E Hok. cbn [attempts]. rewrite E, Hok. reflexivity. Qed.

(** The first fetch that succeeds, if it is one of the attempts allowed,
    decides the outcome. *)
Lemma attempts_first_success (fetch : nat -> FetchResult) (k : nat)
  (status : Z) (href : string) :
  fetch k = Response status (Some href) -> ok status = true ->
  forall (d remaining attempt : nat) (delay : Z) (trace : list Event),
  k = (attempt + d)%nat -> (d < remaining)%nat ->
  (attempt + remaining = S MAX_RETRIES)%nat ->
  (forall j, (attempt <= j < k)%nat -> succeeded (fetch j) = false) ->
  exists trace',
    attempts fetch remaining attempt delay trace = (Returned href, trace') /\
    fetchCount trace' = (fetchCount trace + S d)%nat /\
    length (sleeps trace') = (length (sleeps trace) + d)%nat.
Proof.
  intros Ek Hok d. induction d as [|d IH];
    intros remaining attempt delay trace Hk Hd Hsum Hfail.
  - destruct remaining as [|r]; [lia|].
    rewrite Nat.add_0_r in Hk. subst k.
    rewrite (attempts_success _ _ _ _ _ _ _ Ek Hok).
    eexists. split; [reflexivity|].
    rewrite fetchCount_app, sleeps_app. cbn. rewrite app_nil_r. lia.
  - destruct remaining as [|r]; [lia|].
    rewrite attempts_retry;
      [|apply Hfail; lia|unfold MAX_RETRIES in *; lia].
    destruct (IH r (S attempt) (delay * 2)%Z
                ((trace ++ [Fetch attempt]) ++ [Sleep delay])
                ltac:(lia) ltac:(lia) ltac:(lia))
      as (trace' & E & Hf & Hs).
    { intros j Hj. apply Hfail. lia. }
    exists trace'. split; [exact E|].
    rewrite !fetchCount_app, !sleeps_app in *. cbn in *.
    rewrite !length_app in *. cbn in *. lia.
Qed.

(** A returned URL is the body of an ok response. *)
Lemma attempts_returned (fetch : nat -> FetchResult) (remaining : nat) :
  forall (attempt : nat) (delay : Z) (trace trace' : list Event) (href : string),
  attempts fetch remaining attempt delay trace = (Returned href, trace') ->
  exists k status,
    (attempt <= k < attempt + remaining)%nat /\
    fetch k = Response status (Some href) /\ ok status = true.
Proof.
  induction remaining as [|r IH]; intros attempt delay trace trace' href H;
    [discriminate|].
  assert (Again : forall d t,
             attempts fetch r (S attempt) d t = (Returned href, trace') ->
             exists k status,
               (attempt <= k < attempt + S r)%nat /\
               fetch k = Response status (Some href) /\ ok status = true).
  { intros d t E. destruct (IH _ _ _ _ _ E) as (k & st & Hk & Hf & Hok).
    exists k, st. split; [lia|]. auto. }
  cbn [attempts] in H. unfold catch in H.
  destruct (fetch attempt) as [|status [h|]] eqn:Ef.
  - destruct (attempt =? MAX_RETRIES)%nat; [discriminate|]. eapply Again, H.
  - destruct (ok status) eqn:Hok.
    + injection H as <- _. exists attempt, status. split; [lia|]. auto.
    + destruct (status =? 429)%Z; [eapply Again, H|].
      destruct (attempt =? MAX_RETRIES)%nat; [discriminate|]. eapply Again, H.
  - destruct (ok status).
    + destruct (attempt =? MAX_RETRIES)%nat; [discriminate|]. eapply Again, H.
    + destruct (status =? 429)%Z; [eapply Again, H|].
      destruct (attempt =? MAX_RETRIES)%nat; [discriminate|]. eapply Again, H.
Qed.

(** X17. Whatever the endpoint answers, [signUrl] makes at most four
    fetches, and the delays it sleeps are an initial run of 800, 1600, 3200,
    6400 ms: each sleep doubles the one before. *)
Theorem X17_signUrl_bounded (fetch : nat -> FetchResult) :
  (fetchCount (signUrl fetch).2 <= 4)%nat /\
  exists k, (k <= 4)%nat /\
            sleeps (signUrl fetch).2 = firstn k [800; 1600; 3200; 6400]%Z.
Proof.
  destruct (signUrl_bounded fetch) as (Hf & k & Hk & Hs).
  split; [exact Hf|]. exists k. split; [exact Hk|]. rewrite Hs.
  destruct k as [|[|[|[|[|k]]]]]; try reflexivity. lia.
Qed.

(** X18. When every one of the four attempts is answered with HTTP 429,
    [signUrl] fetches four times, sleeps 800, 1600, 3200 and 6400 ms (the
    last sleep comes after the last attempt) and then throws the rate-limit
    error. *)
Theorem X18_signUrl_rate_limited (fetch : nat -> FetchResult) :
  (forall k, (1 <= k <= 4)%nat -> exists body, fetch k = Response 429 body) ->
  signUrl fetch =
    (Thrown RateLimited,
     [Fetch 1; Sleep 800; Fetch 2; Sleep 1600; Fetch 3; Sleep 3200;
      Fetch 4; Sleep 6400]%Z).
Proof. apply signUrl_rate_limited. Qed.

Lemma X18_signUrl_rate_limited_witness :
  (signUrl (fun _ => Response 429 None)).1 = Thrown RateLimited.
Proof.
  rewrite (X18_signUrl_rate_limited (fun _ => Response 429 None));
    [reflexivity|]. intros k _. exists None. reflexivity.
Defined.

(** X19. [signUrl] never returns an unsigned URL: a URL it returns is the
    [href] of the body of an ok response (status 200 to 299) to one of its
    four fetches. *)
Theorem X19_signUrl_returns_signed (fetch : nat -> FetchResult)
  (href : string) (trace : list Event) :
  signUrl fetch = (Returned href, trace) ->
  exists k status,
    (1 <= k <= 4)%nat /\ fetch k = Response status (Some href) /\
    (200 <= status <= 299)%Z.
Proof.
  intros H. unfold signUrl in H.
  destruct (attempts_returned _ _ _ _ _ _ _ H) as (k & st & Hk & Hf & Hok).
  exists k, st. split; [unfold MAX_RETRIES in Hk; lia|]. split; [exact Hf|].
  unfold ok in Hok. apply andb_true_iff in Hok as (A & B).
  apply Z.leb_le in A, B. lia.
Qed.

Lemma X19_signUrl_returns_signed_witness :
  exists k status,
    (1 <= k <= 4)%nat /\
    fetch_500_then_ok k
      = Response status (Some "https://signed.example/red.tif"%string) /\
    (200 <= status <= 299)%Z.
Proof.
  exact (X19_signUrl_returns_signed fetch_500_then_ok _ _ eq_refl).
Defined.

(** X20. Failures before a success are absorbed: if attempt [k] (of the
    four) is the first whose fetch resolves to an ok response with a
    parsable body, [signUrl] returns the URL of that body after exactly [k]
    fetches and [k - 1] sleeps, whether the earlier attempts were rejected,
    rate limited, answered with another HTTP error or with a body that does
    not parse. *)
Theorem X20_signUrl_first_success (fetch : nat -> FetchResult) (k : nat)
  (status : Z) (href : string) :
  (1 <= k <= 4)%nat ->
  fetch k = Response status (Some href) -> ok status = true ->
  (forall j, (1 <= j < k)%nat -> succeeded (fetch j) = false) ->
  exists trace,
    signUrl fetch = (Returned href, trace) /\
    fetchCount trace = k /\ length (sleeps trace) = (k - 1)%nat.
Proof.
  intros Hk Ef Hok Hfail. unfold signUrl.
  destruct (attempts_first_success fetch k status href Ef Hok (k - 1)
              MAX_RETRIES 1 800%Z [] ltac:(lia)
              ltac:(unfold MAX_RETRIES; lia) eq_refl Hfail)
    as (trace & E & Hf & Hs).
  exists trace. split; [exact E|]. cbn in Hf, Hs. split; lia.
Qed.

Lemma X20_signUrl_first_success_witness :
  exists trace,
    signUrl fetch_500_then_ok
      = (Returned "https://signed.example/red.tif", trace) /\
    fetchCount trace = 2%nat /\ length (sleeps trace) = 1%nat.
Proof.
  apply (X20_signUrl_first_success fetch_500_then_ok 2 200);
    [lia|reflexivity|reflexivity|].
  intros j Hj. assert (j = 1%nat) as -> by lia. reflexivity.
Defined.

End StacMore.

(** ** Band keys *)

Module BandsFacts.
Import Bands.

Lemma ownAsset_present (assets : Assets) (key : string) :
  is_Some (ownAsset assets key) <-> In key (keysOf assets).
Proof.
  induction assets as [|[k a] rest IH]; cbn.
  - split; [intros [x H]; discriminate|intros []].
  - destruct (String.eqb_spec k key) as [E|N].
    + split; [intros _; left; exact E|intros _; eexists; reflexivity].
    + rewrite IH. split; [intros H; right; exact H|].
      intros [E|H]; [contradiction|exact H].
Qed.

Lemma inherited_iff (key : string) :
  existsb (String.eqb key) objectPrototype = true <-> In key objectPrototype.
Proof.
  rewrite existsb_exists. split.
  - intros (x & Hin & E). apply String.eqb_eq in E. subst x. exact Hin.
  - intros H. exists key. split; [exact H|apply String.eqb_refl].
Qed.

Lemma getAsset_present (assets : Assets) (key : string) :
  is_Some (getAsset assets key) <-> hasProperty assets key.
Proof.
  unfold getAsset, hasProperty. rewrite <- ownAsset_present, <- inherited_iff.
  destruct (ownAsset assets key) as [a|].
  - split; [intros _; left|intros _]; eexists; reflexivity.
  - destruct (existsb (String.eqb key) objectPrototype).
    + split; [intros _; right; reflexivity|intros _; eexists; reflexivity].
    + split; [intros [x H]; discriminate|].
      intros [[x H]|H]; discriminate.
Qed.

Lemma getAsset_absent (assets : Assets) (key : string) :
  getAsset assets key = None <-> ~ hasProperty assets key.
Proof.
  rewrite <- getAsset_present. destruct (getAsset assets key).
  - split; [discriminate|]. intros H. exfalso. apply H. eexists. reflexivity.
  - split; [|reflexivity]. intros _ [x H]. discriminate.
Qed.

(** [findKey] returns the first candidate that names a property of the
    object. *)
Lemma findKey_Some (assets : Assets) (candidates : list string) (key : string) :
  findKey assets candidates = Some key <->
  exists before after,
    candidates = before ++ key :: after /\
    hasProperty assets key /\
    forall c, In c before -> ~ hasProperty assets c.
Proof.
  induction candidates as [|c rest IH]; cbn.
  - split; [discriminate|]. intros (b & a & E & _). destruct b; discriminate.
  - destruct (getAsset assets c) as [x|] eqn:G.
    + assert (P : hasProperty assets c).
      { apply getAsset_present. eexists. exact G. }
      split.
      * intros E. injection E as <-. exists [], rest. split; [reflexivity|].
        split; [exact P|]. intros ? [].
      * intros (b & a & E & Hin & Hno). destruct b as [|c' b].
        -- injection E as -> _. reflexivity.
        -- injection E as <- _. exfalso. apply (Hno c); [left; reflexivity|exact P].
    + apply getAsset_absent in G. rewrite IH. split.
      * intros (b & a & -> & Hin & Hno). exists (c :: b), a.
        split; [reflexivity|]. split; [exact Hin|].
        intros c' [<-|H]; [exact G|apply Hno, H].
      * intros (b & a & E & Hin & Hno). destruct b as [|c' b].
        -- injection E as -> _. contradiction.
        -- injection E as -> ->. exists b, a. split; [reflexivity|].
           split; [exact Hin|]. intros c'' H. apply Hno. right. exact H.
Qed.

Lemma findKey_None (assets : Assets) (candidates : list string) :
  findKey assets candidates = None <->
  forall c, In c candidates -> ~ hasProperty assets c.
Proof.
  induction candidates as [|c rest IH]; cbn.
  - split; [intros _ ? []|reflexivity].
  - destruct (getAsset assets c) as [x|] eqn:G.
    + split; [discriminate|]. intros H. exfalso.
      apply (H c); [left; reflexivity|]. apply getAsset_present.
      eexists. exact G.
    + apply getAsset_absent in G. rewrite IH. split.
      * intros H c' [<-|Hin]; [exact G|apply H, Hin].
      * intros H c' Hin. apply H. right. exact Hin.
Qed.

Lemma findKey_in (assets : Assets) (candidates : list string) (key : string) :
  findKey assets candidates = Some key ->
  In key candidates /\ hasProperty assets key.
Proof.
  intros H. apply findKey_Some in H as (b & a & -> & Hin & _).
  split; [apply in_or_app; right; left; reflexivity|exact Hin].
Qed.

(** None of the names [resolveBandKeys] looks for is inherited: a candidate
    it finds is a key of the object itself. *)
Lemma band_names_own (assets : Assets) (key : string) :
  In key (redCandidates ++ nirCandidates) -> hasProperty assets key ->
  In key (keysOf assets).
Proof.
  intros Hc [H|H]; [exact H|exfalso].
  apply inherited_iff in H.
  cbn in Hc. repeat (destruct Hc as [<-|Hc]; [discriminate H|]). exact Hc.
Qed.

Lemma findKey_red_own (assets : Assets) (key : string) :
  findKey assets redCandidates = Some key -> In key (keysOf assets).
Proof.
  intros H. apply findKey_in in H as (Hc & Hp).
  apply (band_names_own assets key); [apply in_or_app; left; exact Hc|exact Hp].
Qed.

Lemma findKey_nir_own (assets : Assets) (key : string) :
  findKey assets nirCandidates = Some key -> In key (keysOf assets).
Proof.
  intros H. apply findKey_in in H as (Hc & Hp).
  apply (band_names_own assets key); [apply in_or_app; right; exact Hc|exact Hp].
Qed.

Lemma resolve_red (assets : Assets) :
  (resolveBandKeys assets).1 = findKey assets redCandidates.
Proof. reflexivity. Qed.

Lemma resolve_nir_present (assets : Assets) (n : string) :
  (resolveBandKeys assets).2 = Some n -> In n (keysOf assets).
Proof.
  unfold resolveBandKeys; cbn [snd].
  destruct (findKey assets nirCandidates) as [n0|] eqn:En; [|discriminate].
  destruct (findKey assets redCandidates) as [r|] eqn:Er.
  - destruct (String.eqb_spec n0 r) as [E|N].
    + intros H. apply findKey_in in H as (H & _).
      apply List.filter_In in H as (H & _). exact H.
    + intros H. injection H as <-. apply (findKey_nir_own _ _ En).
  - intros H. injection H as <-. apply (findKey_nir_own _ _ En).
Qed.

Lemma resolve_distinct (assets : Assets) (r n : string) :
  (resolveBandKeys assets).1 = Some r -> (resolveBandKeys assets).2 = Some n ->
  r <> n.
Proof.
  unfold resolveBandKeys; cbn [fst snd]. intros Er. rewrite Er.
  destruct (findKey assets nirCandidates) as [n0|] eqn:En; [|discriminate].
  destruct (String.eqb_spec n0 r) as [E|N].
  - intros H. apply findKey_in in H as (H & _).
    apply List.filter_In in H as (_ & H). unfold nirLike in H.
    apply andb_true_iff in H as (H & _).
    apply negb_true_iff, String.eqb_neq in H. intros ->. contradiction.
  - intros H. injection H as <-. intros ->. contradiction.
Qed.

(** X21. [findKey] returns the first candidate, in the order of the list,
    that names a property of the assets object (a key of its own, or a name
    it inherits from [Object.prototype], such as "constructor"), and [null]
    exactly when no candidate names one.  When no candidate is an inherited
    name, the key returned is the first candidate that is a key of the
    object itself. *)
Theorem X21_findKey_first_candidate (assets : Assets)
  (candidates : list string) :
  (forall key, findKey assets candidates = Some key <->
     exists before after,
       candidates = before ++ key :: after /\
       hasProperty assets key /\
       forall c, In c before -> ~ hasProperty assets c) /\
  (findKey assets candidates = None <->
   forall c, In c candidates -> ~ hasProperty assets c) /\
  ((forall c, In c candidates -> ~ In c objectPrototype) ->
   forall key, findKey assets candidates = Some key <->
     exists before after,
       candidates = before ++ key :: after /\
       In key (keysOf assets) /\
       forall c, In c before -> ~ In c (keysOf assets)).
Proof.
  split; [intros key; apply findKey_Some|].
  split; [apply findKey_None|].
  intros Hno key. rewrite findKey_Some. split.
  - intros (b & a & E & [Hk|Hk] & Hb).
    + exists b, a. split; [exact E|]. split; [exact Hk|].
      intros c Hc Hin. apply (Hb c Hc). left. exact Hin.
    + exfalso. apply (Hno key); [|exact Hk]. rewrite E.
      apply in_or_app. right. left. reflexivity.
  - intros (b & a & E & Hk & Hb). exists b, a. split; [exact E|].
    split; [left; exact Hk|].
    intros c Hc [Hin|Hin]; [apply (Hb c Hc Hin)|].
    apply (Hno c); [|exact Hin]. rewrite E. apply in_or_app. left. exact Hc.
Qed.

Lemma X21_findKey_first_candidate_witness :
  findKey sr_assets redCandidates = Some "SR_B4"%string /\
  findKey sr_assets [ "constructor"; "SR_B4" ]%string
    = Some "constructor"%string.
Proof.
  split.
  - apply (proj2 (proj2 (X21_findKey_first_candidate sr_assets redCandidates))).
    + intros c Hc Hin. cbn in Hc, Hin.
      repeat (destruct Hc as [<-|Hc];
              [repeat (destruct Hin as [Hin|Hin]; [discriminate Hin|]);
               exact Hin|]).
      exact Hc.
    + exists ["red"%string], ["sr_b4"; "SR_B3"; "sr_b3"; "B4"; "B3"]%string.
      split; [reflexivity|]. split; [cbn; tauto|].
      intros c [<-|[]]. cbn. intros [H|[H|[H|[H|[]]]]]; discriminate.
  - apply (proj1 (X21_findKey_first_candidate sr_assets
                    [ "constructor"; "SR_B4" ]%string)).
    exists [], ["SR_B4"%string]. split; [reflexivity|].
    split; [right; cbn; tauto|]. intros c [].
Defined.

(** X22. The two keys [resolveBandKeys] returns are keys of the assets
    object, and when both are found they differ: the same asset is never
    taken for both the red and the near-infrared band. *)
Theorem X22_band_keys_distinct (assets : Assets) :
  (forall r, (resolveBandKeys assets).1 = Some r -> In r (keysOf assets)) /\
  (forall n, (resolveBandKeys assets).2 = Some n -> In n (keysOf assets)) /\
  (forall r n, (resolveBandKeys assets).1 = Some r ->
               (resolveBandKeys assets).2 = Some n -> r <> n).
Proof.
  split; [|split].
  - intros r H. rewrite resolve_red in H. apply (findKey_red_own _ _ H).
  - apply resolve_nir_present.
  - apply resolve_distinct.
Qed.

(** An object whose only band-like key is "B4": the guard rejects it as the
    near-infrared key. *)
Lemma X22_band_keys_distinct_witness :
  resolveBandKeys [ ("B4", mkAsset "b4.tif"); ("qa", mkAsset "qa.tif") ]%string
    = (Some "B4"%string, None) /\
  "SR_B4"%string <> "SR_B5"%string.
Proof.
  split; [reflexivity|].
  exact (proj2 (proj2 (X22_band_keys_distinct sr_assets))
           "SR_B4"%string "SR_B5"%string eq_refl eq_refl).
Defined.

(** X23. When the assets object has the keys "red" and "nir08" (the names
    of the Planetary Computer catalog), these two are the keys returned,
    whatever other assets there are. *)
Theorem X23_catalog_names_win (assets : Assets) :
  In "red"%string (keysOf assets) -> In "nir08"%string (keysOf assets) ->
  resolveBandKeys assets = (Some "red"%string, Some "nir08"%string).
Proof.
  intros Hr Hn. apply ownAsset_present in Hr as [a Ha].
  apply ownAsset_present in Hn as [b Hb].
  unfold resolveBandKeys, redCandidates, nirCandidates. cbn [findKey].
  unfold getAsset. rewrite Ha, Hb. reflexivity.
Qed.

Lemma X23_catalog_names_win_witness :
  resolveBandKeys
    [ ("SR_B4", mkAsset "x.tif"); ("nir08", mkAsset "n.tif");
      ("red", mkAsset "r.tif") ]%string
  = (Some "red"%string, Some "nir08"%string).
Proof. apply X23_catalog_names_win; cbn; tauto. Defined.

End BandsFacts.

(** ** The hover lookup *)

Module MapFacts.
Import MapView JsMath JsMathFacts.

Lemma hoverCell_Some (west south east north : Q) (pixelW pixelH : Z)
  (lat lng : Q) (col row : Z) :
  hoverCell west south east north pixelW pixelH lat lng = Some (col, row) <->
  col = floor ((lng - west) / (east - west) * inject_Z pixelW) /\
  row = floor ((north - lat) / (north - south) * inject_Z pixelH) /\
  (0 <= col < pixelW)%Z /\ (0 <= row < pixelH)%Z.
Proof.
  unfold hoverCell.
  set (c := floor ((lng - west) / (east - west) * inject_Z pixelW)).
  set (r := floor ((north - lat) / (north - south) * inject_Z pixelH)).
  assert (G : ((0 <=? c) && (c <? pixelW) && (0 <=? r) && (r <? pixelH))%Z = true
              <-> (0 <= c < pixelW)%Z /\ (0 <= r < pixelH)%Z).
  { rewrite !andb_true_iff, !Z.leb_le, !Z.ltb_lt. tauto. }
  destruct ((0 <=? c) && (c <? pixelW) && (0 <=? r) && (r <? pixelH))%Z.
  - destruct (proj1 G eq_refl) as (Hc & Hr). split.
    + intros E. injection E as <- <-. auto.
    + intros (-> & -> & _). reflexivity.
  - split; [discriminate|]. intros (-> & -> & Hc & Hr).
    assert (F : false = true) by (apply G; auto). discriminate.
Qed.

(** X25. A cell found by the hover handler is a cell of the grid, and the
    flat index the handler reads lies within the [pixelW * pixelH] samples
    of the array. *)
Theorem X25_hover_index_in_bounds (west south east north : Q)
  (pixelW pixelH : Z) (lat lng : Q) (col row : Z) :
  hoverCell west south east north pixelW pixelH lat lng = Some (col, row) ->
  (0 <= col < pixelW)%Z /\ (0 <= row < pixelH)%Z /\
  (0 <= row * pixelW + col < pixelW * pixelH)%Z.
Proof.
  intros H. apply hoverCell_Some in H as (_ & _ & Hc & Hr).
  split; [exact Hc|]. split; [exact Hr|]. nia.
Qed.

Lemma X25_hover_index_in_bounds_witness :
  (0 <= 40 * 100 + 50 < 100 * 80)%Z.
Proof.
  exact (proj2 (proj2 (X25_hover_index_in_bounds (-(4)) 40 (-(3)) 41 100 80
                         (81 # 2) (-(7 # 2)) 50 40 eq_refl))).
Defined.

(** X26. The pointer at the centre of a cell of the grid is mapped back to
    that cell. *)
Theorem X26_hover_cell_centre (west south east north : Q) (pixelW pixelH : Z)
  (col row : Z) :
  west < east -> south < north ->
  (0 <= col < pixelW)%Z -> (0 <= row < pixelH)%Z ->
  let (lat, lng) := cellCentre west south east north pixelW pixelH col row in
  hoverCell west south east north pixelW pixelH lat lng = Some (col, row).
Proof.
  intros Hx Hy Hc Hr. unfold cellCentre.
  assert (QW : 0 < inject_Z pixelW).
  { change 0 with (inject_Z 0). rewrite <- Zlt_Qlt. lia. }
  assert (QH : 0 < inject_Z pixelH).
  { change 0 with (inject_Z 0). rewrite <- Zlt_Qlt. lia. }
  apply hoverCell_Some.
  assert (Half : forall z : Z, floor (inject_Z z + (1 # 2)) = z).
  { intros z. apply (round_Z z). }
  split; [|split; [|split; assumption]].
  - transitivity (floor (inject_Z col + (1 # 2))); [symmetry; apply Half|].
    apply PaletteFacts.floor_proper. field. lra.
  - transitivity (floor (inject_Z row + (1 # 2))); [symmetry; apply Half|].
    apply PaletteFacts.floor_proper. field. lra.
Qed.

Lemma X26_hover_cell_centre_witness :
  hoverCell (-(4)) 40 (-(3)) 41 100 80
    (41 - (inject_Z 79 + (1 # 2)) / inject_Z 80 * (41 - 40))
    (-(4) + (inject_Z 0 + (1 # 2)) / inject_Z 100 * (-(3) - -(4)))
  = Some (0%Z, 79%Z).
Proof.
  exact (X26_hover_cell_centre (-(4)) 40 (-(3)) 41 100 80 0 79
           ltac:(reflexivity) ltac:(reflexivity) ltac:(lia) ltac:(lia)).
Defined.



End MapFacts.
